(** * Spotify-Playlist: the classifier and the duration-constrained assembler

    A shallow embedding of [classifySong] and [buildPlaylist] from
    [src/utils/spotify.ts], and the properties of the specification that
    concern them.

    Modelling choices, all read off the source:

    - A [SongAnalysis] object lives on the JavaScript heap; an array holds
      references to such objects.  [Array.prototype.includes] compares
      references, so two distinct objects with the same fields (or the same
      [id]) are different array members, and the same object may occur twice
      in one array.  Objects are therefore addressed by a reference [ref] and
      looked up in a heap [ref -> SongAnalysis]; arrays are [list ref].
    - [duration_ms] is an integer number of milliseconds ([Z]); sums of such
      values are exact in IEEE doubles below 2^53.
    - The audio features ([tempo], [energy], ...) are finite doubles.  The code
      only compares them, with each other (through the sign of a difference)
      or with the literals 100, 0.5, 0.6; these comparisons agree with the
      comparisons of the same values read as rationals, so the features are
      modelled in [Q].
    - [Array.prototype.sort] is stable (ECMAScript 2019); with a comparator
      that is a total preorder the result is the unique stable sorted
      permutation, computed here by a stable insertion sort.

    The development also covers [formatDuration] of the same file, the
    track filter of [pages/index.tsx], the routes [create-playlist.ts] and
    [source-playlist.ts], and the auth callbacks.  There:

    - a route runs against an environment that stands for [getToken], the
      clock and the Spotify SDK; an SDK method may return or throw, and its
      answer may depend on the calls made before it.  A run yields the
      response sent and the calls made, in order;
    - [while] and [for] loops whose end depends on what an SDK call returns
      take a fuel; running out of fuel is a result of its own, never a
      silent end of the loop. *)

From Stdlib Require Import ZArith QArith List Bool String Lia Permutation Sorted.
From Stdlib Require Import Ascii DecimalString DecimalZ Qround.
From stdpp Require Import base list.
Import ListNotations.

Set Default Proof Using "Type".

(** ** Data model *)

(** [export type SessionType = 'calm' | 'building'] *)
Inductive SessionType : Type :=
| calm
| building.

Definition SessionType_eqb (a b : SessionType) : bool :=
  match a, b with
  | calm, calm => true
  | building, building => true
  | _, _ => false
  end.

(** [export interface SongAnalysis] *)
Record SongAnalysis : Type := mkSong {
  id : string;
  name : string;
  artists : list string;
  duration_ms : Z;
  tempo : Q;
  energy : Q;
  acousticness : Q;
  instrumentalness : Q;
  valence : Q;
  uri : string
}.

(** Object references and the heap of song objects. *)
Definition ref : Type := nat.
Definition heap : Type := ref -> SongAnalysis.

(** Strict comparison of two numbers, as a boolean. *)
Definition Qlt_bool (x y : Q) : bool := negb (Qle_bool y x).

(** ** classifySong *)

Definition classifySong (analysis : SongAnalysis) : SessionType :=
  if Qlt_bool (tempo analysis) 100
     || Qlt_bool (energy analysis) 0.5
     || Qlt_bool 0.6 (acousticness analysis)
     || Qlt_bool 0.5 (instrumentalness analysis)
  then calm
  else building.

(** ** Array operations used by buildPlaylist *)

(** [Array.prototype.includes] on an array of object references. *)
Definition includes (arr : list ref) (x : ref) : bool :=
  existsb (Nat.eqb x) arr.

(** [Array.prototype.sort] with a numeric comparator [cmp]: [x] is moved
    behind [y] only when [cmp x y > 0]; ties keep their original order. *)
Section Sort.
Context {A : Type} (cmp : A -> A -> Q).

Fixpoint sort_insert (x : A) (l : list A) : list A :=
  match l with
  | [] => [x]
  | y :: l' =>
      if Qlt_bool 0 (cmp x y) then y :: sort_insert x l' else x :: y :: l'
  end.

Definition sort (l : list A) : list A :=
  fold_right sort_insert [] l.
End Sort.

(** ** buildPlaylist *)

(** [38 * 60 * 1000], the default of [targetDurationMs]. *)
Definition defaultTargetDurationMs : Z := 38 * 60 * 1000.

Section BuildPlaylist.
Variable h : heap.

(** The comparator passed to [sort]. *)
Definition compareEnergy (sessionType : SessionType) (a b : ref) : Q :=
  if SessionType_eqb sessionType calm
  then energy (h a) - energy (h b)
  else energy (h b) - energy (h a).

Definition filteredSongs (songs : list ref) (sessionType : SessionType)
  : list ref :=
  List.filter (fun song => SessionType_eqb (classifySong (h song)) sessionType)
    songs.

Definition sortedSongs (songs : list ref) (sessionType : SessionType)
  : list ref :=
  sort (compareEnergy sessionType) (filteredSongs songs sessionType).

(** The callback of [sortedSongs.find] in the overflow branch. *)
Definition fits (playlist : list ref) (remainingDuration : Z) (s : ref)
  : bool :=
  (duration_ms (h s) <=? remainingDuration)%Z && negb (includes playlist s).

(** The [for (const song of sortedSongs)] loop.  [rest] is the part of
    [sortedSongs] still to visit; the loop state is the pair
    [(playlist, currentDuration)]. *)
Fixpoint pack (sorted : list ref) (targetDurationMs : Z) (rest : list ref)
    (playlist : list ref) (currentDuration : Z) : list ref * Z :=
  match rest with
  | [] => (playlist, currentDuration)
  | song :: rest' =>
      if (currentDuration + duration_ms (h song) <=? targetDurationMs)%Z
      then pack sorted targetDurationMs rest'
             (playlist ++ [song]) (currentDuration + duration_ms (h song))%Z
      else
        let remainingDuration := (targetDurationMs - currentDuration)%Z in
        match List.find (fits playlist remainingDuration) sorted with
        | Some perfectFit =>
            (playlist ++ [perfectFit],
             (currentDuration + duration_ms (h perfectFit))%Z)
        | None => (playlist, currentDuration)
        end
  end.

Definition buildPlaylist (songs : list ref) (sessionType : SessionType)
    (targetDurationMs : Z) : list ref :=
  let sorted := sortedSongs songs sessionType in
  fst (pack sorted targetDurationMs sorted [] 0%Z).
End BuildPlaylist.

(** Sum of [duration_ms] over an array of songs. *)
Definition totalDuration (h : heap) (l : list ref) : Z :=
  fold_right (fun s acc => (duration_ms (h s) + acc)%Z) 0%Z l.

(** ** The same function over an explicit store

    [buildPlaylist] allocates three arrays ([filteredSongs], its copy
    [sortedSongs], which is sorted in place, and [playlist]) and writes to no
    other.  To state what it leaves unchanged, the function is also given
    over a store of arrays, each operation written as the array method the
    source calls. *)

Definition loc : Type := nat.

Record store : Type := mkStore {
  objects : heap;
  arrays : list (list ref)
}.

(** State and failure: a computation may get stuck on a location that is
    not allocated. *)
Definition M (A : Type) : Type := store -> option (A * store).

Definition ret {A : Type} (a : A) : M A := fun s => Some (a, s).

Definition bind {A B : Type} (m : M A) (k : A -> M B) : M B :=
  fun s =>
    match m s with
    | Some (a, s') => k a s'
    | None => None
    end.

Notation "'let*' x ':=' m 'in' k" := (bind m (fun x => k))
  (at level 10, x name, m at level 100, k at level 200).
Notation "m ';;' k" := (bind m (fun _ => k))
  (at level 100, k at level 200, right associativity).

Definition getObjects : M heap := fun s => Some (objects s, s).

Definition readArray (a : loc) : M (list ref) :=
  fun s =>
    match arrays s !! a with
    | Some l => Some (l, s)
    | None => None
    end.

Definition writeArray (a : loc) (l : list ref) : M unit :=
  fun s =>
    match arrays s !! a with
    | Some _ => Some (tt, mkStore (objects s) (<[a := l]> (arrays s)))
    | None => None
    end.

(** A new array gets the next free location. *)
Definition newArray (l : list ref) : M loc :=
  fun s => Some (length (arrays s), mkStore (objects s) (arrays s ++ [l])).

(** [arr.filter(p)]: a new array. *)
Definition arrayFilter (p : ref -> bool) (a : loc) : M loc :=
  let* l := readArray a in newArray (List.filter p l).

(** [[...arr]]: a new array with the same elements. *)
Definition arraySpread (a : loc) : M loc :=
  let* l := readArray a in newArray l.

(** [arr.sort(cmp)]: sorts [arr] in place and returns it. *)
Definition arraySort (cmp : ref -> ref -> Q) (a : loc) : M loc :=
  let* l := readArray a in
  writeArray a (sort cmp l);;
  ret a.

(** [arr.push(x)] *)
Definition arrayPush (a : loc) (x : ref) : M unit :=
  let* l := readArray a in writeArray a (l ++ [x]).

(** [arr.find(p)] *)
Definition arrayFind (p : ref -> bool) (a : loc) : M (option ref) :=
  let* l := readArray a in ret (List.find p l).

(** The loop of [buildPlaylist]; [rest] is what the iterator over
    [sortedSongs] has still to yield.  The callback of [find] reads
    [playlist] as it is when [find] is called. *)
Fixpoint packM (h : heap) (sortedSongs playlist : loc) (targetDurationMs : Z)
    (rest : list ref) (currentDuration : Z) : M Z :=
  match rest with
  | [] => ret currentDuration
  | song :: rest' =>
      if (currentDuration + duration_ms (h song) <=? targetDurationMs)%Z
      then
        arrayPush playlist song;;
        packM h sortedSongs playlist targetDurationMs rest'
          (currentDuration + duration_ms (h song))%Z
      else
        let remainingDuration := (targetDurationMs - currentDuration)%Z in
        let* chosen := readArray playlist in
        let* perfectFit :=
          arrayFind (fits h chosen remainingDuration) sortedSongs in
        match perfectFit with
        | Some s =>
            arrayPush playlist s;;
            ret (currentDuration + duration_ms (h s))%Z
        | None => ret currentDuration
        end
  end.

Definition buildPlaylistM (songs : loc) (sessionType : SessionType)
    (targetDurationMs : Z) : M loc :=
  let* h := getObjects in
  let* filteredSongs :=
    arrayFilter
      (fun song => SessionType_eqb (classifySong (h song)) sessionType) songs in
  let* copy := arraySpread filteredSongs in
  let* sortedSongs := arraySort (compareEnergy h sessionType) copy in
  let* playlist := newArray [] in
  let* candidates := readArray sortedSongs in
  packM h sortedSongs playlist targetDurationMs candidates 0%Z;;
  ret playlist.

(** ** Vocabulary of the specification *)

(** The order in which step 2 of the assembler puts two songs: ascending
    energy for [calm], descending for [building]. *)
Definition energyOrder (h : heap) (sessionType : SessionType) (a b : ref)
  : Prop :=
  match sessionType with
  | calm => (energy (h a) <= energy (h b))%Q
  | building => (energy (h b) <= energy (h a))%Q
  end.

(** The greedy walk takes every candidate of [pre]: after each of them the
    running total, which starts at [0], is within the target. *)
Definition allTaken (h : heap) (targetDurationMs : Z) (pre : list ref) : Prop :=
  forall k : nat,
    (1 <= k <= length pre)%nat ->
    (totalDuration h (take k pre) <= targetDurationMs)%Z.

(** The same, written along the walk from a running total [cur]. *)
Fixpoint accepted (h : heap) (targetDurationMs cur : Z) (l : list ref) : Prop :=
  match l with
  | [] => True
  | x :: l' =>
      (cur + duration_ms (h x) <= targetDurationMs)%Z
      /\ accepted h targetDurationMs (cur + duration_ms (h x)) l'
  end.

(** The single fallback search of the overflow branch, as a list of zero or
    one track: the first track of the whole sorted list that fits the
    remaining budget and is not among the tracks [pre] already chosen. *)
Definition fallback (h : heap) (sorted : list ref) (targetDurationMs : Z)
    (pre : list ref) : list ref :=
  match
    List.find (fits h pre (targetDurationMs - totalDuration h pre)) sorted
  with
  | Some perfectFit => [perfectFit]
  | None => []
  end.

(** No two entries of an array of songs have the same [id]. *)
Definition distinctIds (h : heap) (l : list ref) : Prop :=
  List.NoDup (map (fun r => id (h r)) l).

(** ** Heaps and stores for the examples *)

Definition song (i : string) (d : Z) (e : Q) : SongAnalysis :=
  {| id := i; name := i; artists := []; duration_ms := d;
     tempo := 80; energy := e; acousticness := 0.1; instrumentalness := 0;
     valence := 0.5; uri := i |}.

Definition heapOf (l : list SongAnalysis) : heap :=
  fun r => nth r l (song EmptyString 1 0).

(** Three calm tracks of 600000, 900000 and 900000 ms. *)
Definition threeCalm : heap :=
  heapOf [song "t1" 600000 0.1; song "t2" 900000 0.2; song "t3" 900000 0.3].

(** Two distinct objects with the same [id]. *)
Definition twoSameId : heap :=
  heapOf [song "t1" 600000 0.1; song "t1" 600000 0.1].


(** A long track between two short ones. *)
Definition longMiddle : heap :=
  heapOf [song "a" 1000 0.1; song "b" 5000 0.2; song "c" 500 0.3].

(** ** formatDuration

    [ms] is an integer number of milliseconds, so [Math.floor(ms / 60000)]
    is the quotient rounded down and [ms % 60000] the remainder with the
    sign of [ms]. *)

(** [Number.prototype.toString] of an integer: decimal digits, with a
    leading minus sign for a negative number. *)
Definition numberToString (n : Z) : string :=
  NilZero.string_of_int (Z.to_int n).

(** [String.prototype.padStart] with a pad string of one character. *)
Definition padStart (targetLength : nat) (padChar : ascii) (s : string)
  : string :=
  (string_of_list_ascii (repeat padChar (targetLength - String.length s))
   ++ s)%string.

Definition formatDuration (ms : Z) : string :=
  let minutes := (ms / 60000)%Z in
  let seconds := (Z.rem ms 60000 / 1000)%Z in
  (numberToString minutes ++ ":" ++ padStart 2 "0" (numberToString seconds))
    %string.



(** ** filterTracksBySaunaType ([pages/index.tsx])

    The page has its own [Track] type, with optional audio features; a
    field that is [undefined] is [None]. *)

Record TrackFeatures : Type := mkTrackFeatures {
  tf_energy : option Q;
  tf_tempo : option Q
}.

Record Track : Type := mkTrack {
  track_id : string;
  audioFeatures : option TrackFeatures
}.

Inductive SaunaSessionType : Type :=
| relaxing
| energizing
| balanced.

(** [track.audioFeatures?.energy] and [track.audioFeatures?.tempo] *)
Definition trackEnergy (track : Track) : option Q :=
  match audioFeatures track with
  | Some f => tf_energy f
  | None => None
  end.

Definition trackTempo (track : Track) : option Q :=
  match audioFeatures track with
  | Some f => tf_tempo f
  | None => None
  end.

(** The three filter callbacks: both features must be defined before they
    are compared. *)
Definition isRelaxing (track : Track) : bool :=
  match trackEnergy track, trackTempo track with
  | Some e, Some t => Qlt_bool e 0.5 && Qlt_bool t 100
  | _, _ => false
  end.

Definition isEnergizing (track : Track) : bool :=
  match trackEnergy track, trackTempo track with
  | Some e, Some t => Qlt_bool 0.6 e && Qlt_bool 110 t
  | _, _ => false
  end.

Definition isBalanced (track : Track) : bool :=
  match trackEnergy track, trackTempo track with
  | Some e, Some t =>
      Qle_bool 0.4 e && Qle_bool e 0.7 && Qle_bool 90 t && Qle_bool t 120
  | _, _ => false
  end.

Definition filterTracksBySaunaType (tracks : list Track)
    (sessionType : SaunaSessionType) : list Track :=
  match sessionType with
  | relaxing => List.filter isRelaxing tracks
  | energizing => List.filter isEnergizing tracks
  | balanced => List.filter isBalanced tracks
  end.

(** A quiet, slow track with both features defined. *)
Definition quietTrack : Track :=
  mkTrack "a" (Some (mkTrackFeatures (Some 0.3%Q) (Some 80%Q))).

(** ** The API routes ([pages/api/spotify])

    A route handler is given the request and an environment: the clock, the
    configured client id, what [getToken] yields, and the Spotify Web API
    behind the SDK.  Every SDK method may return a value or throw; what it
    does may depend on the calls made before it.  The handler's outcome is
    the response it sends together with the list of calls it made, in
    order. *)

(** A thrown value: an [Error] with its message, or anything else. *)
Inductive thrown : Type :=
| ErrorObject (message : string)
| OtherValue.

(** The OAuth account handed to the [jwt] callback at sign-in. *)
Record Account : Type := mkAccount {
  account_access_token : option string;
  account_refresh_token : option string;
  account_expires_at : option Z
}.

(** The JWT, with the fields that the module augmentation declares;
    [expiresAt] is a UNIX time in seconds, the user object is opaque. *)
Record JWT : Type := mkJWT {
  jwt_accessToken : option string;
  jwt_refreshToken : option string;
  jwt_expiresAt : option Z;
  jwt_account : option Account;
  jwt_user : option string;
  jwt_error : option string
}.

(** The SDK's [AccessToken]. *)
Record AccessToken : Type := mkAccessToken {
  access_token : string;
  token_type : string;
  expires_in : Z;
  refresh_token : string;
  expires_at : option Z
}.

(** The fields of the SDK's results that the routes read; what else a
    created playlist carries is passed through untouched as [pl_rest]. *)
Record UserProfile : Type := mkUserProfile {
  user_id : string;
  display_name : option string
}.

Record Playlist : Type := mkPlaylist {
  pl_id : string;
  pl_rest : string
}.

Record Artist : Type := mkArtist {
  artist_name : string
}.

Record Album : Type := mkAlbum {
  album_name : string
}.

(** A track of the catalogue; [st_id] is [None] when the id is [null], as
    for a local file. *)
Record SpotifyTrack : Type := mkSpotifyTrack {
  st_id : option string;
  st_name : string;
  st_artists : list Artist;
  st_album : option Album;
  st_duration_ms : Z
}.

(** An item of a playlist; its [track] may be [null]. *)
Record PlaylistedTrack : Type := mkPlaylistedTrack {
  item_track : option SpotifyTrack
}.

(** A page of playlist items, with the URL of the next page if any. *)
Record Page : Type := mkPage {
  page_items : list PlaylistedTrack;
  page_next : option string
}.

(** The SDK's [AudioFeatures]; the fields that no code here reads are
    passed through as [af_rest]. *)
Record AudioFeatures : Type := mkAudioFeatures {
  af_id : string;
  af_energy : Q;
  af_tempo : Q;
  af_rest : string
}.

(** The SDK methods called by the routes, as they appear in the list of
    calls. *)
Inductive call : Type :=
| CurrentUserProfile
| CreatePlaylist (userId playlistName description : string) (isPublic : bool)
| AddItemsToPlaylist (playlistId : string) (uris : list string)
| GetPlaylistItems (playlistId : string) (limit offset : nat)
| TracksAudioFeatures (ids : list string).

(** The [spotify] object: each method is given the calls made so far. *)
Record SpotifyApi : Type := mkSpotifyApi {
  currentUser_profile : list call -> thrown + UserProfile;
  playlists_createPlaylist :
    list call -> string -> string -> string -> bool -> thrown + Playlist;
  playlists_addItemsToPlaylist :
    list call -> string -> list string -> thrown + unit;
  playlists_getPlaylistItems :
    list call -> string -> nat -> nat -> thrown + Page;
  tracks_audioFeatures :
    list call -> list string -> thrown + list (option AudioFeatures)
}.

Record Env : Type := mkEnv {
  Date_now : Z;
  SPOTIFY_CLIENT_ID : option string;
  getToken : thrown + option JWT;
  withAccessToken : string -> AccessToken -> SpotifyApi
}.

(** Computations of a handler: they extend the list of calls and end with
    a value or a thrown value; [None] is a loop that ran out of fuel. *)
Definition H (A : Type) : Type :=
  list call -> option ((thrown + A) * list call).

Definition retH {A : Type} (a : A) : H A := fun tr => Some (inr a, tr).

Definition bindH {A B : Type} (m : H A) (k : A -> H B) : H B :=
  fun tr =>
    match m tr with
    | Some (inr a, tr') => k a tr'
    | Some (inl e, tr') => Some (inl e, tr')
    | None => None
    end.

Notation "'await' x ':=' m 'in' k" := (bindH m (fun x => k))
  (at level 10, x name, m at level 100, k at level 200).

(** An awaited value that needs no call. *)
Definition settle {A : Type} (r : thrown + A) : H A := fun tr => Some (r, tr).

(** An awaited SDK call: it is recorded, and answers from the calls before
    it. *)
Definition request {A : Type} (c : call) (answer : list call -> thrown + A)
  : H A :=
  fun tr => Some (answer tr, tr ++ [c]).

Definition outOfFuel {A : Type} : H A := fun _ => None.

(** [String.prototype.includes] *)
Definition stringIncludes (s sub : string) : bool :=
  match String.index 0 sub s with
  | Some _ => true
  | None => false
  end.

(** Truthiness of an optional string: defined and not empty. *)
Definition truthyString (s : option string) : bool :=
  match s with
  | Some s' => negb (String.eqb s' EmptyString)
  | None => false
  end.

(** [arr.slice(i, j)] for [0 <= i <= j] *)
Definition slice {A : Type} (i j : nat) (l : list A) : list A :=
  take (j - i) (drop i l).

(** A response: its status and its JSON body, which is [{ error }] or
    the payload of the route. *)
Record Response (A : Type) : Type := mkResponse {
  status : Z;
  body : string + A
}.

Arguments mkResponse {A} _ _.
Arguments status {A} _.
Arguments body {A} _.

(** [res.status(code).json({ error })] *)
Definition jsonError {A : Type} (code : Z) (error : string) : Response A :=
  mkResponse code (inl error).

(** [res.status(200).json({ playlist })] *)
Definition jsonPlaylist (playlist : Playlist) : Response Playlist :=
  mkResponse 200 (inr playlist).

(** *** create-playlist.ts *)

(** The request: its method and the three fields read from its body;
    [cr_tracks] is [None] when [tracks] is not an array. *)
Record CreatePlaylistRequest : Type := mkCreatePlaylistRequest {
  cr_method : string;
  cr_name : option string;
  cr_description : option string;
  cr_tracks : option (list string)
}.

(** [token.expiresAt ? Math.max(0, Math.floor(token.expiresAt - Date.now() / 1000)) : 3600] *)
Definition expiresIn (now : Z) (expiresAt : option Z) : Z :=
  match expiresAt with
  | Some e =>
      if (e =? 0)%Z then 3600%Z
      else Z.max 0 (Qfloor (inject_Z e - inject_Z now / 1000))
  | None => 3600%Z
  end.

(** The client the route builds from the token:
    [SpotifyApi.withAccessToken(clientId, accessToken)]. *)
Definition spotifyFor (env : Env) (token : JWT) : SpotifyApi :=
  let clientId := default EmptyString (SPOTIFY_CLIENT_ID env) in
  let accessToken :=
    {| access_token := default EmptyString (jwt_accessToken token);
       token_type := "Bearer";
       expires_in := expiresIn (Date_now env) (jwt_expiresAt token);
       refresh_token := default EmptyString (jwt_refreshToken token);
       expires_at := None |} in
  withAccessToken env clientId accessToken.

(** The loop that adds the tracks in batches of 100. *)
Fixpoint addBatches (spotify : SpotifyApi) (playlistId : string)
    (trackUris : list string) (fuel : nat) (i : nat) : H unit :=
  if (i <? length trackUris)%nat then
    match fuel with
    | O => outOfFuel
    | S fuel' =>
        let batch := slice i (i + 100) trackUris in
        await _ :=
          request (AddItemsToPlaylist playlistId batch)
            (fun tr => playlists_addItemsToPlaylist spotify tr playlistId batch)
        in
        addBatches spotify playlistId trackUris fuel' (i + 100)
    end
  else retH tt.

(** [tracks.map((trackId) => `spotify:track:${trackId}`)] *)
Definition trackUrisOf (tracks : list string) : list string :=
  map (fun trackId => ("spotify:track:" ++ trackId)%string) tracks.

(** [description ?? `Sauna playlist created for ${currentUser.display_name ?? 'you'}`] *)
Definition descriptionFor (req : CreatePlaylistRequest)
    (currentUser : UserProfile) : string :=
  match cr_description req with
  | Some d => d
  | None =>
      ("Sauna playlist created for "
       ++ default "you" (display_name currentUser))%string
  end.

(** The [try] block. *)
Definition createPlaylistTry (env : Env) (req : CreatePlaylistRequest)
  : H (Response Playlist) :=
  await token := settle (getToken env) in
  match token with
  | None => retH (jsonError 401 "Not authenticated")
  | Some token =>
      if negb (truthyString (jwt_accessToken token))
      then retH (jsonError 401 "Not authenticated")
      else
        if negb (truthyString (cr_name req))
           || match cr_tracks req with
              | Some tracks => (length tracks =? 0)%nat
              | None => true
              end
        then retH (jsonError 400 "Invalid request data")
        else
          let name := default EmptyString (cr_name req) in
          let tracks := default [] (cr_tracks req) in
          let spotify := spotifyFor env token in
          await currentUser :=
            request CurrentUserProfile (currentUser_profile spotify) in
          let description := descriptionFor req currentUser in
          await playlist :=
            request
              (CreatePlaylist (user_id currentUser) name description false)
              (fun tr =>
                 playlists_createPlaylist spotify tr (user_id currentUser)
                   name description false) in
          let trackUris := trackUrisOf tracks in
          await _ :=
            addBatches spotify (pl_id playlist) trackUris (length trackUris) 0
          in
          retH (jsonPlaylist playlist)
  end.

(** The [catch] clause. *)
Definition createPlaylistCatch (error : thrown) : Response Playlist :=
  let message :=
    match error with
    | ErrorObject m => m
    | OtherValue => "Failed to create playlist"%string
    end in
  let statusCode := if stringIncludes message "403" then 403%Z else 500%Z in
  jsonError statusCode message.

Definition createPlaylistHandler (env : Env) (req : CreatePlaylistRequest)
  : option (Response Playlist * list call) :=
  if negb (String.eqb (cr_method req) "POST")
  then Some (jsonError 405 "Method not allowed", [])
  else
    match createPlaylistTry env req [] with
    | Some (inr response, tr) => Some (response, tr)
    | Some (inl error, tr) => Some (createPlaylistCatch error, tr)
    | None => None
    end.

(** What a call throws, if it throws, when made after the calls [hist]. *)
Definition callThrows (spotify : SpotifyApi) (hist : list call) (c : call)
  : option thrown :=
  match c with
  | CurrentUserProfile =>
      match currentUser_profile spotify hist with
      | inl e => Some e
      | inr _ => None
      end
  | CreatePlaylist userId playlistName description isPublic =>
      match
        playlists_createPlaylist spotify hist userId playlistName description
          isPublic
      with
      | inl e => Some e
      | inr _ => None
      end
  | AddItemsToPlaylist playlistId uris =>
      match playlists_addItemsToPlaylist spotify hist playlistId uris with
      | inl e => Some e
      | inr _ => None
      end
  | GetPlaylistItems playlistId limit offset =>
      match playlists_getPlaylistItems spotify hist playlistId limit offset with
      | inl e => Some e
      | inr _ => None
      end
  | TracksAudioFeatures ids =>
      match tracks_audioFeatures spotify hist ids with
      | inl e => Some e
      | inr _ => None
      end
  end.

(** Every call of [cs], made in order after the calls [hist], returns. *)
Fixpoint allReturn (spotify : SpotifyApi) (hist cs : list call) : Prop :=
  match cs with
  | [] => True
  | c :: cs' =>
      callThrows spotify hist c = None
      /\ allReturn spotify (hist ++ [c]) cs'
  end.

(** The request that [createPlaylist] of [pages/index.tsx] builds: the ids
    of the tracks kept by the filter. *)
Definition createPlaylistRequestOf (newPlaylistName : string)
    (analyzedTracks : list Track) (saunaSessionType : SaunaSessionType)
  : CreatePlaylistRequest :=
  let filteredTracks :=
    filterTracksBySaunaType analyzedTracks saunaSessionType in
  {| cr_method := "POST";
     cr_name := Some newPlaylistName;
     cr_description :=
       Some (match saunaSessionType with
             | relaxing => "relaxing"
             | energizing => "energizing"
             | balanced => "balanced"
             end ++ " sauna playlist created with Sauna Playlist Generator")
         %string;
     cr_tracks := Some (map track_id filteredTracks) |}.

(** What [createPlaylist] posts: nothing when there is no analysed track or
    no access token in the session. *)
Definition createPlaylistPosts (sessionAccessToken : option string)
    (newPlaylistName : string) (analyzedTracks : list Track)
    (saunaSessionType : SaunaSessionType) : option CreatePlaylistRequest :=
  if (length analyzedTracks =? 0)%nat
     || negb (truthyString sessionAccessToken)
  then None
  else
    Some
      (createPlaylistRequestOf newPlaylistName analyzedTracks
         saunaSessionType).

(** *** Vocabulary for the outcomes of create-playlist.ts *)

(** [getToken] yields a token whose [accessToken] is defined and not
    empty. *)
Definition authenticated (env : Env) (token : JWT) : Prop :=
  getToken env = inr (Some token)
  /\ truthyString (jwt_accessToken token) = true.

(** The body has a non-empty [name] and a non-empty array [tracks]. *)
Definition validBody (req : CreatePlaylistRequest) (playlistName : string)
    (tracks : list string) : Prop :=
  cr_name req = Some playlistName
  /\ playlistName <> EmptyString
  /\ cr_tracks req = Some tracks
  /\ tracks <> [].

(** [bs] are the first batches of [uris]: the [k]-th is the slice of 100
    that starts at index [100 * k]. *)
Definition batchesOf (uris : list string) (bs : list (list string)) : Prop :=
  forall (k : nat) (b : list string),
    bs !! k = Some b ->
    b = slice (100 * k) (100 * k + 100) uris /\ (100 * k < length uris)%nat.

(** The ways a request to create-playlist.ts can end. *)
Inductive createPlaylistOutcome (env : Env) (req : CreatePlaylistRequest)
  : Response Playlist -> list call -> Prop :=
| cpo_method :
    cr_method req <> "POST"%string ->
    createPlaylistOutcome env req (jsonError 405 "Method not allowed") []
| cpo_getToken_throws (e : thrown) :
    cr_method req = "POST"%string ->
    getToken env = inl e ->
    createPlaylistOutcome env req (createPlaylistCatch e) []
| cpo_no_token :
    cr_method req = "POST"%string ->
    getToken env = inr None ->
    createPlaylistOutcome env req (jsonError 401 "Not authenticated") []
| cpo_no_accessToken (token : JWT) :
    cr_method req = "POST"%string ->
    getToken env = inr (Some token) ->
    truthyString (jwt_accessToken token) = false ->
    createPlaylistOutcome env req (jsonError 401 "Not authenticated") []
| cpo_invalid (token : JWT) :
    cr_method req = "POST"%string ->
    authenticated env token ->
    truthyString (cr_name req) = false
    \/ cr_tracks req = None \/ cr_tracks req = Some [] ->
    createPlaylistOutcome env req (jsonError 400 "Invalid request data") []
| cpo_profile_throws (token : JWT) (playlistName : string)
    (tracks : list string) (e : thrown) :
    cr_method req = "POST"%string ->
    authenticated env token ->
    validBody req playlistName tracks ->
    currentUser_profile (spotifyFor env token) [] = inl e ->
    createPlaylistOutcome env req (createPlaylistCatch e) [CurrentUserProfile]
| cpo_create_throws (token : JWT) (playlistName : string)
    (tracks : list string) (currentUser : UserProfile) (e : thrown) :
    cr_method req = "POST"%string ->
    authenticated env token ->
    validBody req playlistName tracks ->
    currentUser_profile (spotifyFor env token) [] = inr currentUser ->
    playlists_createPlaylist (spotifyFor env token) [CurrentUserProfile]
      (user_id currentUser) playlistName (descriptionFor req currentUser) false
    = inl e ->
    createPlaylistOutcome env req (createPlaylistCatch e)
      [CurrentUserProfile;
       CreatePlaylist (user_id currentUser) playlistName
         (descriptionFor req currentUser) false]
| cpo_batch_throws (token : JWT) (playlistName : string)
    (tracks : list string) (currentUser : UserProfile) (playlist : Playlist)
    (sent : list (list string)) (batch : list string) (e : thrown) :
    cr_method req = "POST"%string ->
    authenticated env token ->
    validBody req playlistName tracks ->
    currentUser_profile (spotifyFor env token) [] = inr currentUser ->
    playlists_createPlaylist (spotifyFor env token) [CurrentUserProfile]
      (user_id currentUser) playlistName (descriptionFor req currentUser) false
    = inr playlist ->
    batchesOf (trackUrisOf tracks) (sent ++ [batch]) ->
    allReturn (spotifyFor env token)
      [CurrentUserProfile;
       CreatePlaylist (user_id currentUser) playlistName
         (descriptionFor req currentUser) false]
      (map (AddItemsToPlaylist (pl_id playlist)) sent) ->
    callThrows (spotifyFor env token)
      ([CurrentUserProfile;
        CreatePlaylist (user_id currentUser) playlistName
          (descriptionFor req currentUser) false]
       ++ map (AddItemsToPlaylist (pl_id playlist)) sent)
      (AddItemsToPlaylist (pl_id playlist) batch) = Some e ->
    createPlaylistOutcome env req (createPlaylistCatch e)
      ([CurrentUserProfile;
        CreatePlaylist (user_id currentUser) playlistName
          (descriptionFor req currentUser) false]
       ++ map (AddItemsToPlaylist (pl_id playlist)) (sent ++ [batch]))
| cpo_created (token : JWT) (playlistName : string)
    (tracks : list string) (currentUser : UserProfile) (playlist : Playlist)
    (batches : list (list string)) :
    cr_method req = "POST"%string ->
    authenticated env token ->
    validBody req playlistName tracks ->
    currentUser_profile (spotifyFor env token) [] = inr currentUser ->
    playlists_createPlaylist (spotifyFor env token) [CurrentUserProfile]
      (user_id currentUser) playlistName (descriptionFor req currentUser) false
    = inr playlist ->
    batchesOf (trackUrisOf tracks) batches ->
    concat batches = trackUrisOf tracks ->
    allReturn (spotifyFor env token)
      [CurrentUserProfile;
       CreatePlaylist (user_id currentUser) playlistName
         (descriptionFor req currentUser) false]
      (map (AddItemsToPlaylist (pl_id playlist)) batches) ->
    createPlaylistOutcome env req (jsonPlaylist playlist)
      ([CurrentUserProfile;
        CreatePlaylist (user_id currentUser) playlistName
          (descriptionFor req currentUser) false]
       ++ map (AddItemsToPlaylist (pl_id playlist)) batches).

(** *** source-playlist.ts *)

(** [try { ... } catch (error) { ... }] *)
Definition catchH {A : Type} (m : H A) (handler : thrown -> H A) : H A :=
  fun tr =>
    match m tr with
    | Some (inl e, tr') => handler e tr'
    | Some (inr a, tr') => Some (inr a, tr')
    | None => None
    end.

(** The request: its method and the [playlistId] of its body. *)
Record SourcePlaylistRequest : Type := mkSourcePlaylistRequest {
  sr_method : string;
  sr_playlistId : option string
}.

(** An element of the [tracks] array of the response. *)
Record AnalyzedTrack : Type := mkAnalyzedTrack {
  at_id : string;
  at_name : string;
  at_artists : list string;
  at_album : string;
  at_duration_ms : Z;
  at_audioFeatures : option AudioFeatures
}.

(** [res.status(200).json({ tracks })] *)
Definition jsonTracks (tracks : list AnalyzedTrack)
  : Response (list AnalyzedTrack) :=
  mkResponse 200 (inr tracks).

(** The client of this route; its token also carries [expires_at]. *)
Definition spotifyForSource (env : Env) (token : JWT) : SpotifyApi :=
  let clientId := default EmptyString (SPOTIFY_CLIENT_ID env) in
  let initialAccessToken :=
    {| access_token := default EmptyString (jwt_accessToken token);
       token_type := "Bearer";
       expires_in := expiresIn (Date_now env) (jwt_expiresAt token);
       refresh_token := default EmptyString (jwt_refreshToken token);
       expires_at := Some (default 0%Z (jwt_expiresAt token)) |} in
  withAccessToken env clientId initialAccessToken.

(** The response of the [catch] around a page request. *)
Definition pageCatch (error : thrown) : Response (list AnalyzedTrack) :=
  jsonError 500 "Failed to fetch all playlist tracks.".

(** One page request, inside its own [try]: a failure is answered at once
    with status 500, whatever was thrown. *)
Definition fetchPage (spotify : SpotifyApi) (playlistId : string)
    (offset : nat) : H (Response (list AnalyzedTrack) + Page) :=
  catchH
    (await playlistTracks :=
       request (GetPlaylistItems playlistId 50 offset)
         (fun tr => playlists_getPlaylistItems spotify tr playlistId 50 offset)
     in
     retH (inr playlistTracks))
    (fun error => retH (inl (pageCatch error))).

(** The [while (hasMoreTracks)] loop: it ends with the items collected, or
    with the response of a failed page.  The loop goes on as long as the
    pages are not empty and name a next page, so it has a fuel. *)
Fixpoint fetchPages (spotify : SpotifyApi) (playlistId : string) (fuel : nat)
    (allPlaylistTracks : list PlaylistedTrack) (offset : nat)
  : H (Response (list AnalyzedTrack) + list PlaylistedTrack) :=
  match fuel with
  | O => outOfFuel
  | S fuel' =>
      await fetched := fetchPage spotify playlistId offset in
      match fetched with
      | inl response => retH (inl response)
      | inr playlistTracks =>
          if (length (page_items playlistTracks) =? 0)%nat
          then retH (inr allPlaylistTracks)
          else
            let allPlaylistTracks' :=
              allPlaylistTracks ++ page_items playlistTracks in
            if negb (truthyString (page_next playlistTracks))
            then retH (inr allPlaylistTracks')
            else
              fetchPages spotify playlistId fuel' allPlaylistTracks'
                (offset + 50)
      end
  end.

(** [allPlaylistTracks.map((item) => item.track).filter((track) => !!track?.id)]:
    the tracks that are not [null] and have a non-empty id. *)
Definition validTracksOf (allPlaylistTracks : list PlaylistedTrack)
  : list SpotifyTrack :=
  omap
    (fun item =>
       match item_track item with
       | Some track => if truthyString (st_id track) then Some track else None
       | None => None
       end)
    allPlaylistTracks.

(** [track.id] of a valid track. *)
Definition trackId (track : SpotifyTrack) : string :=
  default EmptyString (st_id track).

(** [featuresResult.filter((f) => f !== null)] *)
Definition nonNull (featuresResult : list (option AudioFeatures))
  : list AudioFeatures :=
  omap Datatypes.id featuresResult.

(** The [catch] of a features batch and the outer [catch] map what was
    thrown to a status in the same way. *)
Definition sourceStatusCode (message : string) : Z :=
  if stringIncludes message "403" || stringIncludes message "Bad OAuth"
  then 403%Z
  else 500%Z.

(** The response of the [catch] around a features request. *)
Definition featuresCatch (error : thrown) : Response (list AnalyzedTrack) :=
  let message :=
    match error with
    | ErrorObject m => m
    | OtherValue => "Failed to fetch audio features for a batch"%string
    end in
  let statusCode := sourceStatusCode message in
  jsonError statusCode
    ("Analysis failed during audio feature fetch: " ++ message)%string.

(** One features request, inside its own [try]. *)
Definition fetchFeaturesBatch (spotify : SpotifyApi)
    (allAudioFeatures : list AudioFeatures) (batch : list string)
  : H (Response (list AnalyzedTrack) + list AudioFeatures) :=
  catchH
    (await featuresResult :=
       request (TracksAudioFeatures batch)
         (fun tr => tracks_audioFeatures spotify tr batch)
     in
     let validFeatures := nonNull featuresResult in
     retH (inr (allAudioFeatures ++ validFeatures)))
    (fun error => retH (inl (featuresCatch error))).

(** The loop over the ids in batches of 100. *)
Fixpoint fetchFeatures (spotify : SpotifyApi) (trackIds : list string)
    (fuel : nat) (allAudioFeatures : list AudioFeatures) (i : nat)
  : H (Response (list AnalyzedTrack) + list AudioFeatures) :=
  if (i <? length trackIds)%nat then
    match fuel with
    | O => outOfFuel
    | S fuel' =>
        let batch := slice i (i + 100) trackIds in
        await fetched := fetchFeaturesBatch spotify allAudioFeatures batch in
        match fetched with
        | inl response => retH (inl response)
        | inr allAudioFeatures' =>
            fetchFeatures spotify trackIds fuel' allAudioFeatures' (i + 100)
        end
    end
  else retH (inr allAudioFeatures).

(** The callback of [validTracks.map]: the track with the first fetched
    features that carry its id, if any. *)
Definition withFeatures (allAudioFeatures : list AudioFeatures)
    (track : SpotifyTrack) : AnalyzedTrack :=
  let features :=
    List.find (fun f => String.eqb (af_id f) (trackId track))
      allAudioFeatures in
  {| at_id := trackId track;
     at_name := st_name track;
     at_artists := map artist_name (st_artists track);
     at_album :=
       match st_album track with
       | Some album => album_name album
       | None => "Unknown Album"%string
       end;
     at_duration_ms := st_duration_ms track;
     at_audioFeatures := features |}.

(** The outer [try] block; [fuel] bounds the number of pages. *)
Definition sourcePlaylistTry (fuel : nat) (env : Env)
    (req : SourcePlaylistRequest) : H (Response (list AnalyzedTrack)) :=
  await token := settle (getToken env) in
  match token with
  | None => retH (jsonError 401 "Not authenticated")
  | Some token =>
      if negb (truthyString (jwt_accessToken token))
      then retH (jsonError 401 "Not authenticated")
      else
        if negb (truthyString (sr_playlistId req))
        then retH (jsonError 400 "Playlist ID is required")
        else
          let playlistId := default EmptyString (sr_playlistId req) in
          let initialSpotify := spotifyForSource env token in
          await pages := fetchPages initialSpotify playlistId fuel [] 0 in
          match pages with
          | inl response => retH response
          | inr allPlaylistTracks =>
              let validTracks := validTracksOf allPlaylistTracks in
              let trackIds := map trackId validTracks in
              if (length trackIds =? 0)%nat then retH (jsonTracks [])
              else
                await features :=
                  fetchFeatures initialSpotify trackIds (length trackIds) [] 0
                in
                match features with
                | inl response => retH response
                | inr allAudioFeatures =>
                    let tracksWithFeatures :=
                      map (withFeatures allAudioFeatures) validTracks in
                    retH (jsonTracks tracksWithFeatures)
                end
          end
  end.

(** The outer [catch]. *)
Definition sourcePlaylistCatch (error : thrown)
  : Response (list AnalyzedTrack) :=
  let message :=
    match error with
    | ErrorObject m => m
    | OtherValue => "Failed to analyze playlist"%string
    end in
  jsonError (sourceStatusCode message) message.

Definition sourcePlaylistHandler (fuel : nat) (env : Env)
    (req : SourcePlaylistRequest)
  : option (Response (list AnalyzedTrack) * list call) :=
  if negb (String.eqb (sr_method req) "POST")
  then Some (jsonError 405 "Method not allowed", [])
  else
    match sourcePlaylistTry fuel env req [] with
    | Some (inr response, tr) => Some (response, tr)
    | Some (inl error, tr) => Some (sourcePlaylistCatch error, tr)
    | None => None
    end.

(** A catalogue that behaves: it serves the playlist [items] page by page,
    names a next page exactly when items remain, and knows the features
    [features id] of a track. *)
Definition catalogue (items : list PlaylistedTrack)
    (features : string -> option AudioFeatures) : SpotifyApi :=
  {| currentUser_profile := fun _ => inl OtherValue;
     playlists_createPlaylist := fun _ _ _ _ _ => inl OtherValue;
     playlists_addItemsToPlaylist := fun _ _ _ => inl OtherValue;
     playlists_getPlaylistItems :=
       fun _ _ limit offset =>
         inr {| page_items := take limit (drop offset items);
                page_next :=
                  if (offset + limit <? length items)%nat
                  then Some "next"%string
                  else None |};
     tracks_audioFeatures := fun _ ids => inr (map features ids) |}.

(** *** Vocabulary for the outcomes of source-playlist.ts *)

(** The first [n] page requests: 50 items each, from [offset] on. *)
Definition pageRequests (playlistId : string) (offset n : nat) : list call :=
  map (fun k => GetPlaylistItems playlistId 50 (offset + 50 * k)) (seq 0 n).

(** The ways a request to source-playlist.ts can end, when it ends. *)
Inductive sourcePlaylistOutcome (env : Env) (req : SourcePlaylistRequest)
  : Response (list AnalyzedTrack) -> list call -> Prop :=
| spo_method :
    sr_method req <> "POST"%string ->
    sourcePlaylistOutcome env req (jsonError 405 "Method not allowed") []
| spo_getToken_throws (e : thrown) :
    sr_method req = "POST"%string ->
    getToken env = inl e ->
    sourcePlaylistOutcome env req (sourcePlaylistCatch e) []
| spo_no_token :
    sr_method req = "POST"%string ->
    getToken env = inr None ->
    sourcePlaylistOutcome env req (jsonError 401 "Not authenticated") []
| spo_no_accessToken (token : JWT) :
    sr_method req = "POST"%string ->
    getToken env = inr (Some token) ->
    truthyString (jwt_accessToken token) = false ->
    sourcePlaylistOutcome env req (jsonError 401 "Not authenticated") []
| spo_no_playlistId (token : JWT) :
    sr_method req = "POST"%string ->
    authenticated env token ->
    truthyString (sr_playlistId req) = false ->
    sourcePlaylistOutcome env req (jsonError 400 "Playlist ID is required") []
| spo_page_throws (token : JWT) (playlistId : string) (n : nat) (e : thrown) :
    sr_method req = "POST"%string ->
    authenticated env token ->
    sr_playlistId req = Some playlistId ->
    allReturn (spotifyForSource env token) [] (pageRequests playlistId 0 n) ->
    callThrows (spotifyForSource env token) (pageRequests playlistId 0 n)
      (GetPlaylistItems playlistId 50 (50 * n)) = Some e ->
    sourcePlaylistOutcome env req (pageCatch e)
      (pageRequests playlistId 0 (S n))
| spo_no_valid_track (token : JWT) (playlistId : string) (n : nat) :
    sr_method req = "POST"%string ->
    authenticated env token ->
    sr_playlistId req = Some playlistId ->
    allReturn (spotifyForSource env token) [] (pageRequests playlistId 0 (S n)) ->
    sourcePlaylistOutcome env req (jsonTracks [])
      (pageRequests playlistId 0 (S n))
| spo_features_throw (token : JWT) (playlistId : string) (n : nat)
    (allPlaylistTracks : list PlaylistedTrack) (sent : list (list string))
    (batch : list string) (e : thrown) :
    sr_method req = "POST"%string ->
    authenticated env token ->
    sr_playlistId req = Some playlistId ->
    batchesOf (map trackId (validTracksOf allPlaylistTracks))
      (sent ++ [batch]) ->
    allReturn (spotifyForSource env token) []
      (pageRequests playlistId 0 (S n) ++ map TracksAudioFeatures sent) ->
    callThrows (spotifyForSource env token)
      (pageRequests playlistId 0 (S n) ++ map TracksAudioFeatures sent)
      (TracksAudioFeatures batch) = Some e ->
    sourcePlaylistOutcome env req (featuresCatch e)
      (pageRequests playlistId 0 (S n)
       ++ map TracksAudioFeatures (sent ++ [batch]))
| spo_analyzed (token : JWT) (playlistId : string) (n : nat)
    (allPlaylistTracks : list PlaylistedTrack) (batches : list (list string))
    (allAudioFeatures : list AudioFeatures) :
    sr_method req = "POST"%string ->
    authenticated env token ->
    sr_playlistId req = Some playlistId ->
    validTracksOf allPlaylistTracks <> [] ->
    batchesOf (map trackId (validTracksOf allPlaylistTracks)) batches ->
    concat batches = map trackId (validTracksOf allPlaylistTracks) ->
    allReturn (spotifyForSource env token) []
      (pageRequests playlistId 0 (S n) ++ map TracksAudioFeatures batches) ->
    sourcePlaylistOutcome env req
      (jsonTracks
         (map (withFeatures allAudioFeatures)
            (validTracksOf allPlaylistTracks)))
      (pageRequests playlistId 0 (S n) ++ map TracksAudioFeatures batches).

(** ** The auth callbacks ([jwt], [session], [refreshAccessToken])

    The token endpoint is reached with [fetch]; the request is determined
    by the refresh token, its URL and headers being configuration.  The
    outcome of a callback is the token it returns together with the refresh
    tokens it posted. *)

(** The JSON of a refresh response. *)
Record SpotifyRefreshedTokens : Type := mkSpotifyRefreshedTokens {
  rt_access_token : string;
  rt_token_type : string;
  rt_expires_in : Z;
  rt_refresh_token : option string;
  rt_scope : string
}.

(** What [fetch] resolves to; [response.json()] may throw. *)
Record FetchResponse : Type := mkFetchResponse {
  fr_ok : bool;
  fr_status : Z;
  fr_statusText : string;
  fr_json : thrown + SpotifyRefreshedTokens
}.

Record AuthEnv : Type := mkAuthEnv {
  auth_now : Z;
  auth_fetch : string -> thrown + FetchResponse
}.

(** The [try] block of [refreshAccessToken]. *)
Definition refreshAccessTokenTry (env : AuthEnv) (token : JWT)
  : (thrown + JWT) * list string :=
  if negb (truthyString (jwt_refreshToken token))
  then (inl (ErrorObject "Missing refresh token"), [])
  else
    let refreshToken := default EmptyString (jwt_refreshToken token) in
    match auth_fetch env refreshToken with
    | inl e => (inl e, [refreshToken])
    | inr response =>
        match fr_json response with
        | inl e => (inl e, [refreshToken])
        | inr refreshedTokens =>
            if negb (fr_ok response)
            then
              (inl
                 (ErrorObject
                    ("Failed to refresh token: "
                     ++ numberToString (fr_status response) ++ " "
                     ++ fr_statusText response)%string),
               [refreshToken])
            else
              (inr
                 {| jwt_accessToken := Some (rt_access_token refreshedTokens);
                    jwt_refreshToken :=
                      match rt_refresh_token refreshedTokens with
                      | Some r => Some r
                      | None => jwt_refreshToken token
                      end;
                    jwt_expiresAt :=
                      Some
                        (Qfloor
                           (inject_Z (auth_now env) / 1000
                            + inject_Z (rt_expires_in refreshedTokens)));
                    jwt_account := jwt_account token;
                    jwt_user := jwt_user token;
                    jwt_error := None |},
               [refreshToken])
        end
    end.

Definition refreshAccessToken (env : AuthEnv) (token : JWT)
  : JWT * list string :=
  match refreshAccessTokenTry env token with
  | (inr newTokenData, posted) => (newTokenData, posted)
  | (inl _, posted) =>
      ({| jwt_accessToken := jwt_accessToken token;
          jwt_refreshToken := jwt_refreshToken token;
          jwt_expiresAt := jwt_expiresAt token;
          jwt_account := jwt_account token;
          jwt_user := jwt_user token;
          jwt_error := Some "RefreshAccessTokenError"%string |},
       posted)
  end.

(** [token.expiresAt && Date.now() < token.expiresAt * 1000] *)
Definition notExpired (now : Z) (token : JWT) : bool :=
  match jwt_expiresAt token with
  | Some e => negb (e =? 0)%Z && (now <? e * 1000)%Z
  | None => false
  end.

(** The [jwt] callback; [now] is the clock when it checks the expiry. *)
Definition jwtCallback (now : Z) (env : AuthEnv) (token : JWT)
    (account : option Account) (user : option string) : JWT * list string :=
  match account, user with
  | Some account, Some user =>
      ({| jwt_accessToken := account_access_token account;
          jwt_refreshToken := account_refresh_token account;
          jwt_expiresAt := account_expires_at account;
          jwt_account := Some account;
          jwt_user := Some user;
          jwt_error := jwt_error token |},
       [])
  | _, _ =>
      if notExpired now token then (token, [])
      else refreshAccessToken env token
  end.

(** The session object, and the [session] callback. *)
Record Session : Type := mkSession {
  session_user : option string;
  session_accessToken : option string;
  session_error : option string
}.

Definition sessionCallback (session : Session) (token : JWT) : Session :=
  {| session_user := session_user session;
     session_accessToken := jwt_accessToken token;
     session_error := jwt_error token |}.

(** A token endpoint that grants an hour. *)
Definition grantingEndpoint : AuthEnv :=
  mkAuthEnv 1700000000500%Z
    (fun _ =>
       inr (mkFetchResponse true 200 "OK"
              (inr (mkSpotifyRefreshedTokens "fresh" "Bearer" 3600 None
                      "playlist-read-private")))).

(** A token endpoint that refuses. *)
Definition refusingEndpoint : AuthEnv :=
  mkAuthEnv 1700000000500%Z
    (fun _ =>
       inr (mkFetchResponse false 400 "Bad Request" (inl OtherValue))).

(** A token that expired long ago. *)
Definition staleToken : JWT :=
  mkJWT (Some "old"%string) (Some "refresh"%string) (Some 1600000000%Z)
    None (Some "user"%string) None.

(** *** Environments for the examples *)

(** A Spotify that accepts every call. *)
Definition acceptingSpotify : SpotifyApi :=
  {| currentUser_profile := fun _ => inr (mkUserProfile "user1" None);
     playlists_createPlaylist :=
       fun _ _ _ _ _ => inr (mkPlaylist "playlist1" "private");
     playlists_addItemsToPlaylist := fun _ _ _ => inr tt;
     playlists_getPlaylistItems := fun _ _ _ _ => inr (mkPage [] None);
     tracks_audioFeatures := fun _ _ => inr [] |}.


Definition signedIn : JWT :=
  mkJWT (Some "access"%string) (Some "refresh"%string) (Some 1700003600%Z)
    None None None.

Definition envWith (spotify : SpotifyApi) : Env :=
  mkEnv 1700000000000%Z (Some "client"%string) (inr (Some signedIn))
    (fun _ _ => spotify).

(** The track ids 0, 1, ..., [n - 1], and a request for these tracks. *)
Definition idsUpTo (n : nat) : list string :=
  map (fun k => numberToString (Z.of_nat k)) (seq 0 n).

Definition requestFor (n : nat) : CreatePlaylistRequest :=
  mkCreatePlaylistRequest "POST" (Some "Sauna"%string) None
    (Some (idsUpTo n)).

(** A playlist of three items: a track, an item without track, and a track
    without id. *)
Definition demoItems : list PlaylistedTrack :=
  [ mkPlaylistedTrack
      (Some (mkSpotifyTrack (Some "t1"%string) "One" [mkArtist "A"]
               (Some (mkAlbum "Album")) 200000%Z));
    mkPlaylistedTrack None;
    mkPlaylistedTrack
      (Some (mkSpotifyTrack None "Local" [] None 100000%Z)) ].

Definition demoFeatures (trackId : string) : option AudioFeatures :=
  Some (mkAudioFeatures trackId 0.3 80 "more").

(** A Spotify on which every page request fails with a 403. *)
Definition forbiddenSpotify : SpotifyApi :=
  {| currentUser_profile := fun _ => inl OtherValue;
     playlists_createPlaylist := fun _ _ _ _ _ => inl OtherValue;
     playlists_addItemsToPlaylist := fun _ _ _ => inl OtherValue;
     playlists_getPlaylistItems :=
       fun _ _ _ _ => inl (ErrorObject "403 Forbidden"%string);
     tracks_audioFeatures := fun _ _ => inl OtherValue |}.

Definition sourceRequest : SourcePlaylistRequest :=
  mkSourcePlaylistRequest "POST" (Some "playlist"%string).

(** ** Comparisons *)

Lemma Qlt_bool_iff (x y : Q) : Qlt_bool x y = true <-> (x < y)%Q.
Proof.
  unfold Qlt_bool. rewrite negb_true_iff.
  split.
  - intros Hb. apply Qnot_le_lt. intros Hle.
    apply Qle_bool_iff in Hle. congruence.
  - intros Hlt. destruct (Qle_bool y x) eqn:E; [|reflexivity].
    apply Qle_bool_iff in E. exfalso. exact (Qlt_not_le _ _ Hlt E).
Qed.

Lemma Qlt_bool_false_iff (x y : Q) : Qlt_bool x y = false <-> (y <= x)%Q.
Proof.
  unfold Qlt_bool. rewrite negb_false_iff. apply Qle_bool_iff.
Qed.

Lemma SessionType_eqb_eq (a b : SessionType) :
  SessionType_eqb a b = true <-> a = b.
Proof. destruct a, b; simpl; split; congruence. Qed.

Lemma includes_In (arr : list ref) (x : ref) :
  includes arr x = true <-> In x arr.
Proof.
  unfold includes. rewrite existsb_exists. split.
  - intros [y [Hy Heq]]. apply Nat.eqb_eq in Heq. subst. exact Hy.
  - intros Hx. exists x. split; [exact Hx | apply Nat.eqb_refl].
Qed.

(** ** The sort *)

Section SortFacts.
Context {A : Type} (cmp : A -> A -> Q).

Lemma sort_insert_perm (x : A) (l : list A) :
  Permutation (sort_insert cmp x l) (x :: l).
Proof.
  induction l as [|y l IH]; simpl.
  - apply Permutation_refl.
  - destruct (Qlt_bool 0 (cmp x y)).
    + eapply Permutation_trans; [apply perm_skip, IH | apply perm_swap].
    + apply Permutation_refl.
Qed.

Lemma sort_perm (l : list A) : Permutation (sort cmp l) l.
Proof.
  induction l as [|x l IH]; simpl.
  - apply perm_nil.
  - eapply Permutation_trans; [apply sort_insert_perm | apply perm_skip, IH].
Qed.

Lemma sort_In (l : list A) (x : A) : In x (sort cmp l) <-> In x l.
Proof.
  split; apply Permutation_in;
    [apply sort_perm | apply Permutation_sym, sort_perm].
Qed.

(** The sort puts the array in the order [le] whenever the comparator
    decides that order: [cmp x y <= 0] means [le x y], and [cmp x y > 0]
    means [le y x]. *)
Variable le : A -> A -> Prop.
Hypothesis le_trans : forall x y z, le x y -> le y z -> le x z.
Hypothesis cmp_le : forall x y, (cmp x y <= 0)%Q -> le x y.
Hypothesis cmp_gt : forall x y, (0 < cmp x y)%Q -> le y x.

Lemma sort_insert_sorted (x : A) (l : list A) :
  StronglySorted le l -> StronglySorted le (sort_insert cmp x l).
Proof using le_trans cmp_le cmp_gt.
  induction 1 as [|y l Hl IH Hy]; simpl.
  - constructor; constructor.
  - destruct (Qlt_bool 0 (cmp x y)) eqn:E.
    + apply Qlt_bool_iff in E.
      constructor; [exact IH|].
      apply List.Forall_forall. intros z Hz.
      apply (Permutation_in _ (sort_insert_perm x l)) in Hz.
      destruct Hz as [<-|Hz].
      * apply cmp_gt, E.
      * rewrite List.Forall_forall in Hy. apply Hy, Hz.
    + apply Qlt_bool_false_iff in E.
      constructor; [constructor; assumption|].
      constructor; [apply cmp_le, E|].
      rewrite List.Forall_forall in Hy |- *. intros z Hz.
      eapply le_trans; [apply cmp_le, E | apply Hy, Hz].
Qed.

Lemma sort_sorted (l : list A) : StronglySorted le (sort cmp l).
Proof using le_trans cmp_le cmp_gt.
  induction l as [|x l IH]; simpl.
  - constructor.
  - apply sort_insert_sorted, IH.
Qed.
End SortFacts.

Lemma energyOrder_trans (h : heap) (m : SessionType) (x y z : ref) :
  energyOrder h m x y -> energyOrder h m y z -> energyOrder h m x z.
Proof.
  destruct m; simpl; intros H1 H2.
  - eapply Qle_trans; eassumption.
  - eapply Qle_trans; eassumption.
Qed.

Lemma compareEnergy_le (h : heap) (m : SessionType) (x y : ref) :
  (compareEnergy h m x y <= 0)%Q -> energyOrder h m x y.
Proof.
  unfold compareEnergy. destruct m; simpl; intros H.
  - apply Qle_minus_iff in H. apply Qle_minus_iff.
    assert (E : (energy (h y) + - energy (h x)
                 == 0 + - (energy (h x) - energy (h y)))%Q) by ring.
    rewrite E. exact H.
  - apply Qle_minus_iff in H. apply Qle_minus_iff.
    assert (E : (energy (h x) + - energy (h y)
                 == 0 + - (energy (h y) - energy (h x)))%Q) by ring.
    rewrite E. exact H.
Qed.

Lemma compareEnergy_gt (h : heap) (m : SessionType) (x y : ref) :
  (0 < compareEnergy h m x y)%Q -> energyOrder h m y x.
Proof.
  unfold compareEnergy. destruct m; simpl; intros H.
  - apply Qlt_le_weak. apply Qlt_minus_iff.
    unfold Qminus in H. exact H.
  - apply Qlt_le_weak. apply Qlt_minus_iff.
    unfold Qminus in H. exact H.
Qed.

Lemma sortedSongs_sorted (h : heap) (songs : list ref) (m : SessionType) :
  StronglySorted (energyOrder h m) (sortedSongs h songs m).
Proof.
  unfold sortedSongs.
  apply sort_sorted.
  - apply energyOrder_trans.
  - apply compareEnergy_le.
  - apply compareEnergy_gt.
Qed.

Lemma sortedSongs_perm (h : heap) (songs : list ref) (m : SessionType) :
  Permutation (sortedSongs h songs m) (filteredSongs h songs m).
Proof. apply sort_perm. Qed.

Lemma sortedSongs_In (h : heap) (songs : list ref) (m : SessionType) (x : ref) :
  In x (sortedSongs h songs m)
  <-> In x songs /\ classifySong (h x) = m.
Proof.
  unfold sortedSongs. rewrite sort_In. unfold filteredSongs.
  rewrite filter_In, SessionType_eqb_eq. reflexivity.
Qed.

(** ** Running totals *)

Lemma totalDuration_app (h : heap) (l1 l2 : list ref) :
  totalDuration h (l1 ++ l2) = (totalDuration h l1 + totalDuration h l2)%Z.
Proof.
  induction l1 as [|x l1 IH]; simpl; [reflexivity|].
  rewrite IH. lia.
Qed.

Lemma accepted_running (h : heap) (t cur : Z) (l : list ref) :
  accepted h t cur l
  <-> forall k : nat, (1 <= k <= length l)%nat ->
                      (cur + totalDuration h (take k l) <= t)%Z.
Proof.
  revert cur. induction l as [|x l IH]; intros cur; simpl.
  - split; [intros _ k Hk; lia | trivial].
  - rewrite IH. split.
    + intros [Hx Hl] k Hk. destruct k as [|k]; [lia|]. simpl.
      destruct k as [|k].
      * rewrite take_0. simpl. lia.
      * specialize (Hl (S k)). simpl in Hl |- *. lia.
    + intros Hall. split.
      * specialize (Hall 1%nat). simpl in Hall.
        try rewrite take_0 in Hall. simpl in Hall. lia.
      * intros k Hk. specialize (Hall (S k)). simpl in Hall. lia.
Qed.

Lemma accepted_allTaken (h : heap) (t : Z) (l : list ref) :
  accepted h t 0 l <-> allTaken h t l.
Proof.
  rewrite accepted_running. unfold allTaken.
  split; intros H k Hk; specialize (H k Hk); lia.
Qed.


Lemma accepted_app (h : heap) (t cur : Z) (l1 l2 : list ref) :
  accepted h t cur (l1 ++ l2)
  <-> accepted h t cur l1 /\ accepted h t (cur + totalDuration h l1) l2.
Proof.
  revert cur. induction l1 as [|x l1 IH]; intros cur; simpl.
  - rewrite Z.add_0_r. tauto.
  - rewrite IH, Z.add_assoc. tauto.
Qed.

(** Either the walk takes all of [l], or some candidate is the first to
    overflow. *)
Lemma walk_cases (h : heap) (t cur : Z) (l : list ref) :
  accepted h t cur l
  \/ exists pre c post,
       l = pre ++ c :: post
       /\ accepted h t cur pre
       /\ (t < cur + totalDuration h pre + duration_ms (h c))%Z.
Proof.
  revert cur. induction l as [|x l IH]; intros cur; simpl.
  - left. exact I.
  - destruct (Z_le_gt_dec (cur + duration_ms (h x)) t) as [Hle|Hgt].
    + destruct (IH (cur + duration_ms (h x))%Z)
        as [Hacc | (pre & c & post & -> & Hacc & Hover)].
      * left. split; assumption.
      * right. exists (x :: pre), c, post. simpl.
        repeat split; try assumption. lia.
    + right. exists [], x, l. simpl. repeat split. lia.
Qed.

(** ** The loop *)

Lemma pack_accepted (h : heap) (sorted : list ref) (t : Z)
    (pre rest pl : list ref) (cur : Z) :
  accepted h t cur pre ->
  pack h sorted t (pre ++ rest) pl cur
  = pack h sorted t rest (pl ++ pre) (cur + totalDuration h pre)%Z.
Proof.
  revert pl cur. induction pre as [|x pre IH]; intros pl cur; simpl.
  - intros _. rewrite app_nil_r, Z.add_0_r. reflexivity.
  - intros [Hx Hpre].
    apply Z.leb_le in Hx as Hb. rewrite Hb.
    rewrite IH by assumption.
    rewrite <- app_assoc, Z.add_assoc. reflexivity.
Qed.

Lemma pack_overflow (h : heap) (sorted : list ref) (t : Z)
    (c : ref) (rest pl : list ref) (cur : Z) :
  (t < cur + duration_ms (h c))%Z ->
  fst (pack h sorted t (c :: rest) pl cur)
  = pl ++ match List.find (fits h pl (t - cur)) sorted with
          | Some perfectFit => [perfectFit]
          | None => []
          end.
Proof.
  intros Hover. simpl.
  apply Z.leb_gt in Hover. rewrite Hover.
  destruct (List.find _ sorted); simpl; [reflexivity|].
  rewrite app_nil_r. reflexivity.
Qed.

Lemma pack_nil (h : heap) (sorted : list ref) (t : Z) (pl : list ref) (cur : Z) :
  pack h sorted t [] pl cur = (pl, cur).
Proof. reflexivity. Qed.

Lemma buildPlaylist_all_taken (h : heap) (songs : list ref) (m : SessionType)
    (t : Z) :
  allTaken h t (sortedSongs h songs m) ->
  buildPlaylist h songs m t = sortedSongs h songs m.
Proof.
  intros Hall. apply accepted_allTaken in Hall.
  unfold buildPlaylist. cbv zeta.
  rewrite <- (app_nil_r (sortedSongs h songs m)) at 2.
  rewrite pack_accepted by exact Hall.
  reflexivity.
Qed.

Lemma buildPlaylist_first_overflow (h : heap) (songs : list ref)
    (m : SessionType) (t : Z) (pre : list ref) (c : ref) (post : list ref) :
  sortedSongs h songs m = pre ++ c :: post ->
  allTaken h t pre ->
  (t < totalDuration h pre + duration_ms (h c))%Z ->
  buildPlaylist h songs m t
  = pre ++ fallback h (sortedSongs h songs m) t pre.
Proof.
  intros Hsorted Hall Hover. apply accepted_allTaken in Hall.
  unfold buildPlaylist, fallback. cbv zeta.
  rewrite Hsorted at 2.
  rewrite pack_accepted by exact Hall.
  rewrite pack_overflow by (simpl; lia).
  reflexivity.
Qed.

(** What the fallback search returns. *)
Lemma fallback_cases (h : heap) (sorted : list ref) (t : Z) (pre : list ref) :
  (fallback h sorted t pre = []
   /\ forall s, In s sorted ->
                (duration_ms (h s) <= t - totalDuration h pre)%Z -> In s pre)
  \/ exists p,
       fallback h sorted t pre = [p]
       /\ In p sorted
       /\ (duration_ms (h p) <= t - totalDuration h pre)%Z
       /\ ~ In p pre.
Proof.
  unfold fallback.
  destruct (List.find _ sorted) as [p|] eqn:E.
  - right. exists p. apply find_some in E. destruct E as [Hin Hfit].
    unfold fits in Hfit. apply andb_true_iff in Hfit.
    destruct Hfit as [Hd Hinc].
    apply Z.leb_le in Hd. apply negb_true_iff in Hinc.
    repeat split; try assumption.
    intros Hp. apply includes_In in Hp. congruence.
  - left. split; [reflexivity|].
    intros s Hs Hd.
    pose proof (find_none _ _ E s Hs) as Hfit.
    unfold fits in Hfit. apply andb_false_iff in Hfit.
    destruct Hfit as [Hfit|Hfit].
    + apply Z.leb_gt in Hfit. lia.
    + apply negb_false_iff in Hfit. apply includes_In, Hfit.
Qed.

(** The two shapes of a result. *)
Lemma buildPlaylist_shape (h : heap) (songs : list ref) (m : SessionType)
    (t : Z) :
  (allTaken h t (sortedSongs h songs m)
   /\ buildPlaylist h songs m t = sortedSongs h songs m)
  \/ exists pre c post,
       sortedSongs h songs m = pre ++ c :: post
       /\ allTaken h t pre
       /\ (t < totalDuration h pre + duration_ms (h c))%Z
       /\ buildPlaylist h songs m t
          = pre ++ fallback h (sortedSongs h songs m) t pre.
Proof.
  destruct (walk_cases h t 0 (sortedSongs h songs m))
    as [Hacc | (pre & c & post & Hs & Hacc & Hover)].
  - left. apply accepted_allTaken in Hacc.
    split; [exact Hacc | apply buildPlaylist_all_taken, Hacc].
  - right. exists pre, c, post.
    apply accepted_allTaken in Hacc.
    assert (Hover' : (t < totalDuration h pre + duration_ms (h c))%Z) by lia.
    split; [exact Hs|]. split; [exact Hacc|]. split; [exact Hover'|].
    eapply buildPlaylist_first_overflow; eassumption.
Qed.


Lemma allTaken_head (h : heap) (t : Z) (x : ref) (l : list ref) :
  allTaken h t (x :: l) -> (duration_ms (h x) <= t)%Z.
Proof.
  intros Hall. apply accepted_allTaken in Hall. simpl in Hall. lia.
Qed.

Lemma allTaken_app_l (h : heap) (t : Z) (l1 l2 : list ref) :
  allTaken h t (l1 ++ l2) -> allTaken h t l1.
Proof.
  rewrite <- !accepted_allTaken, accepted_app. tauto.
Qed.

Lemma fallback_length (h : heap) (sorted : list ref) (t : Z) (pre : list ref) :
  (length (fallback h sorted t pre) <= 1)%nat.
Proof.
  unfold fallback. destruct (List.find _ sorted); simpl; lia.
Qed.

Lemma fallback_In (h : heap) (sorted : list ref) (t : Z) (pre : list ref)
    (p : ref) :
  In p (fallback h sorted t pre) -> In p sorted /\ ~ In p pre.
Proof.
  destruct (fallback_cases h sorted t pre)
    as [[-> _] | (q & -> & Hq & _ & Hnot)]; simpl.
  - tauto.
  - intros [<-|[]]. split; assumption.
Qed.

(** Every selected track is one of the sorted candidates. *)
Lemma buildPlaylist_In_sorted (h : heap) (songs : list ref) (m : SessionType)
    (t : Z) (x : ref) :
  In x (buildPlaylist h songs m t) -> In x (sortedSongs h songs m).
Proof.
  destruct (buildPlaylist_shape h songs m t)
    as [[_ ->] | (pre & c & post & Hs & _ & _ & ->)]; [trivial|].
  rewrite in_app_iff. intros [Hx|Hx].
  - rewrite Hs. apply in_or_app. left. exact Hx.
  - apply fallback_In in Hx. tauto.
Qed.

(** ** The classifier *)

(** C2: [classifySong] returns [calm] exactly when [tempo < 100] or
    [energy < 0.5] or [acousticness > 0.6] or [instrumentalness > 0.5], and
    [building] otherwise; in particular a track with [tempo < 100] is calm
    whatever its other fields, and a track with [tempo >= 100],
    [energy >= 0.5], [acousticness <= 0.6] and [instrumentalness <= 0.5] is
    building. *)
Theorem classifySong_thresholds (t : SongAnalysis) :
  (classifySong t = calm
   <-> (tempo t < 100 \/ energy t < 0.5 \/ 0.6 < acousticness t
        \/ 0.5 < instrumentalness t)%Q)
  /\ (classifySong t = building
      <-> ~ (tempo t < 100 \/ energy t < 0.5 \/ 0.6 < acousticness t
             \/ 0.5 < instrumentalness t)%Q)
  /\ ((tempo t < 100)%Q -> classifySong t = calm)
  /\ ((100 <= tempo t)%Q /\ (0.5 <= energy t)%Q /\ (acousticness t <= 0.6)%Q
      /\ (instrumentalness t <= 0.5)%Q ->
      classifySong t = building).
Proof.
  assert (Hcalm : classifySong t = calm
                  <-> (tempo t < 100 \/ energy t < 0.5 \/ 0.6 < acousticness t
                       \/ 0.5 < instrumentalness t)%Q).
  { unfold classifySong.
    destruct (Qlt_bool (tempo t) 100) eqn:E1;
      destruct (Qlt_bool (energy t) 0.5) eqn:E2;
      destruct (Qlt_bool 0.6 (acousticness t)) eqn:E3;
      destruct (Qlt_bool 0.5 (instrumentalness t)) eqn:E4; simpl;
      rewrite ?Qlt_bool_iff in *; rewrite ?Qlt_bool_false_iff in *;
      try (split; [intros _; tauto | reflexivity]).
    split; [discriminate|].
    intros [H|[H|[H|H]]]; exfalso; eapply Qlt_not_le; eassumption. }
  assert (Hbuilding : classifySong t = building
                      <-> ~ (tempo t < 100 \/ energy t < 0.5
                             \/ 0.6 < acousticness t
                             \/ 0.5 < instrumentalness t)%Q).
  { rewrite <- Hcalm. destruct (classifySong t); split; congruence. }
  split; [exact Hcalm|]. split; [exact Hbuilding|]. split.
  - intros H. apply Hcalm. left. exact H.
  - intros (H1 & H2 & H3 & H4). apply Hbuilding.
    intros [H|[H|[H|H]]]; eapply Qlt_not_le; eassumption.
Qed.

(** The two tracks the specification gives as examples. *)
Example classifySong_slow_is_calm :
  classifySong
    {| id := "s"; name := "s"; artists := []; duration_ms := 1;
       tempo := 80; energy := 0.9; acousticness := 0.1;
       instrumentalness := 0.0; valence := 0.5; uri := "s" |} = calm.
Proof. reflexivity. Qed.

Example classifySong_fast_is_building :
  classifySong
    {| id := "f"; name := "f"; artists := []; duration_ms := 1;
       tempo := 120; energy := 0.8; acousticness := 0.2;
       instrumentalness := 0.1; valence := 0.5; uri := "f" |} = building.
Proof. reflexivity. Qed.

(** The thresholds themselves fall on the building side. *)
Example classifySong_at_thresholds :
  classifySong
    {| id := "e"; name := "e"; artists := []; duration_ms := 1;
       tempo := 100; energy := 0.5; acousticness := 0.6;
       instrumentalness := 0.5; valence := 0.5; uri := "e" |} = building.
Proof. reflexivity. Qed.

(** ** The assembler *)





(** C5: every returned track classifies as the target mood, the fallback
    track included. *)
Theorem buildPlaylist_mood (h : heap) (songs : list ref) (m : SessionType)
    (t : Z) (x : ref) :
  In x (buildPlaylist h songs m t) -> classifySong (h x) = m.
Proof.
  intros Hx. apply buildPlaylist_In_sorted in Hx.
  apply sortedSongs_In in Hx. tauto.
Qed.

Lemma buildPlaylist_mood_witness :
  classifySong (threeCalm 1%nat) = calm.
Proof.
  apply (buildPlaylist_mood threeCalm [0; 1; 2]%nat calm 2280000 1%nat).
  vm_compute. tauto.
Defined.

(** C7: when every track of the target mood is longer than the target, the
    result is empty; so it is for the empty input. *)
Theorem buildPlaylist_all_too_long (h : heap) (songs : list ref)
    (m : SessionType) (t : Z) :
  (forall x, In x songs -> classifySong (h x) = m ->
             (t < duration_ms (h x))%Z) ->
  buildPlaylist h songs m t = [].
Proof.
  intros Hlong.
  assert (Hsorted : forall x, In x (sortedSongs h songs m) ->
                              (t < duration_ms (h x))%Z).
  { intros x Hx. apply sortedSongs_In in Hx. apply Hlong; tauto. }
  destruct (buildPlaylist_shape h songs m t)
    as [[Hall ->] | (pre & c & post & Hs & Hall & _ & ->)].
  - destruct (sortedSongs h songs m) as [|c l]; [reflexivity|].
    apply allTaken_head in Hall.
    specialize (Hsorted c (or_introl eq_refl)). lia.
  - destruct pre as [|x pre].
    + destruct (fallback_cases h (sortedSongs h songs m) t [])
        as [[-> _] | (p & _ & Hp & Hd & _)]; [reflexivity|].
      specialize (Hsorted p Hp). simpl in Hd. lia.
    + apply allTaken_head in Hall.
      assert (Hx : In x (sortedSongs h songs m)).
      { rewrite Hs. left. reflexivity. }
      specialize (Hsorted x Hx). lia.
Qed.

Lemma buildPlaylist_all_too_long_witness :
  buildPlaylist threeCalm [0; 1; 2]%nat calm 500000 = [].
Proof.
  apply (buildPlaylist_all_too_long threeCalm [0; 1; 2]%nat calm 500000).
  intros x [<-|[<-|[<-|[]]]] _; vm_compute; reflexivity.
Defined.

(** The empty input gives the empty result. *)
Example buildPlaylist_empty_input (h : heap) (m : SessionType) (t : Z) :
  buildPlaylist h [] m t = [].
Proof. reflexivity. Qed.

(** C10: when some track of the target mood is no longer than the target
    (and the target is non-negative), the result is not empty. *)
Theorem buildPlaylist_nonempty (h : heap) (songs : list ref) (m : SessionType)
    (t : Z) (x : ref) :
  (0 <= t)%Z ->
  In x songs ->
  classifySong (h x) = m ->
  (duration_ms (h x) <= t)%Z ->
  buildPlaylist h songs m t <> [].
Proof.
  intros _ Hx Hm Hd.
  assert (Hin : In x (sortedSongs h songs m)).
  { apply sortedSongs_In. split; assumption. }
  destruct (buildPlaylist_shape h songs m t)
    as [[_ ->] | (pre & c & post & _ & _ & _ & ->)].
  - intros E. rewrite E in Hin. exact Hin.
  - destruct pre as [|y pre]; [|discriminate].
    destruct (fallback_cases h (sortedSongs h songs m) t [])
      as [[_ Hnone] | (p & -> & _)]; [|discriminate].
    exfalso. apply (Hnone x Hin). simpl. lia.
Qed.

Lemma buildPlaylist_nonempty_witness :
  buildPlaylist longMiddle [0; 1; 2]%nat calm 700 <> [].
Proof.
  apply (buildPlaylist_nonempty longMiddle [0; 1; 2]%nat calm 700 2%nat).
  - lia.
  - simpl. tauto.
  - reflexivity.
  - vm_compute. discriminate.
Defined.

(** C6: the sorted candidates are the filtered tracks in energy order
    (ascending for [calm], descending for [building]); the result is a
    prefix of them followed by at most one track, the fallback track, which
    is appended last and is itself one of the candidates. *)
Theorem buildPlaylist_order (h : heap) (songs : list ref) (m : SessionType)
    (t : Z) :
  Permutation (sortedSongs h songs m)
    (List.filter (fun s => SessionType_eqb (classifySong (h s)) m) songs)
  /\ StronglySorted (energyOrder h m) (sortedSongs h songs m)
  /\ exists pre patch,
       buildPlaylist h songs m t = pre ++ patch
       /\ pre `prefix_of` sortedSongs h songs m
       /\ (length patch <= 1)%nat
       /\ (forall p, In p patch -> In p (sortedSongs h songs m)).
Proof.
  split; [apply sortedSongs_perm|].
  split; [apply sortedSongs_sorted|].
  destruct (buildPlaylist_shape h songs m t)
    as [[_ Heq] | (pre & c & post & Hs & _ & _ & Heq)].
  - exists (sortedSongs h songs m), [].
    rewrite app_nil_r.
    split; [exact Heq|]. split; [exists []; symmetry; apply app_nil_r|].
    split; [simpl; lia|]. intros p [].
  - exists pre, (fallback h (sortedSongs h songs m) t pre).
    split; [exact Heq|]. split; [exists (c :: post); exact Hs|].
    split; [apply fallback_length|].
    intros p Hp. apply fallback_In in Hp. tauto.
Qed.

(** A building session: descending energy, and the fallback track last. *)
Example buildPlaylist_building_order :
  let h := heapOf
             [ {| id := "x"; name := "x"; artists := []; duration_ms := 1000;
                  tempo := 120; energy := 0.6; acousticness := 0.1;
                  instrumentalness := 0; valence := 0.5; uri := "x" |};
               {| id := "y"; name := "y"; artists := []; duration_ms := 700;
                  tempo := 120; energy := 0.9; acousticness := 0.1;
                  instrumentalness := 0; valence := 0.5; uri := "y" |};
               {| id := "z"; name := "z"; artists := []; duration_ms := 200;
                  tempo := 120; energy := 0.5; acousticness := 0.1;
                  instrumentalness := 0; valence := 0.5; uri := "z" |} ] in
  sortedSongs h [0; 1; 2]%nat building = [1; 0; 2]%nat
  /\ buildPlaylist h [0; 1; 2]%nat building 1000 = [1; 2]%nat.
Proof. split; reflexivity. Qed.

(** ** Identifiers *)

Lemma NoDup_map_filter {A B : Type} (f : A -> B) (p : A -> bool) (l : list A) :
  List.NoDup (map f l) -> List.NoDup (map f (List.filter p l)).
Proof.
  induction l as [|x l IH]; simpl; [trivial|].
  intros Hnd. apply List.NoDup_cons_iff in Hnd. destruct Hnd as [Hx Hl].
  destruct (p x); simpl; [|apply IH, Hl].
  apply List.NoDup_cons_iff. split; [|apply IH, Hl].
  intros Hin. apply Hx.
  apply in_map_iff in Hin. destruct Hin as (y & Hy & Hin).
  apply filter_In in Hin. apply in_map_iff. exists y. tauto.
Qed.

Lemma NoDup_map_inj_In {A B : Type} (f : A -> B) (l : list A) (x y : A) :
  List.NoDup (map f l) -> In x l -> In y l -> f x = f y -> x = y.
Proof.
  induction l as [|z l IH]; simpl; [tauto|].
  intros Hnd. apply List.NoDup_cons_iff in Hnd. destruct Hnd as [Hz Hl].
  intros [->|Hx] [->|Hy] Hf.
  - reflexivity.
  - exfalso. apply Hz. rewrite Hf. apply in_map, Hy.
  - exfalso. apply Hz. rewrite <- Hf. apply in_map, Hx.
  - apply IH; assumption.
Qed.

Lemma sortedSongs_distinctIds (h : heap) (songs : list ref) (m : SessionType) :
  distinctIds h songs -> distinctIds h (sortedSongs h songs m).
Proof.
  unfold distinctIds. intros Hnd.
  eapply Permutation_NoDup.
  - apply Permutation_map, Permutation_sym, sortedSongs_perm.
  - unfold filteredSongs. apply NoDup_map_filter, Hnd.
Qed.

(** C4, as the code has it: the assembler never compares [id]s, so the
    result has no two entries with the same [id] provided the input has
    none. *)
Theorem buildPlaylist_distinct_ids (h : heap) (songs : list ref)
    (m : SessionType) (t : Z) :
  distinctIds h songs ->
  distinctIds h (buildPlaylist h songs m t).
Proof.
  intros Hnd. apply (sortedSongs_distinctIds h songs m) in Hnd.
  destruct (buildPlaylist_shape h songs m t)
    as [[_ ->] | (pre & c & post & Hs & _ & _ & ->)]; [exact Hnd|].
  assert (Hpre : distinctIds h pre).
  { unfold distinctIds in *. rewrite Hs, map_app in Hnd.
    eapply NoDup_app_remove_r, Hnd. }
  destruct (fallback_cases h (sortedSongs h songs m) t pre)
    as [[-> _] | (p & -> & Hp & _ & Hnot)].
  - rewrite app_nil_r. exact Hpre.
  - unfold distinctIds in *. rewrite map_app. simpl.
    eapply Permutation_NoDup; [apply Permutation_cons_append|].
    apply List.NoDup_cons_iff. split; [|exact Hpre].
    intros Hin. apply in_map_iff in Hin. destruct Hin as (q & Hq & Hin).
    apply Hnot.
    assert (Hqs : In q (sortedSongs h songs m)).
    { rewrite Hs. apply in_or_app. left. exact Hin. }
    rewrite <- (NoDup_map_inj_In _ _ q p Hnd Hqs Hp Hq). exact Hin.
Qed.

Lemma buildPlaylist_distinct_ids_witness :
  distinctIds threeCalm (buildPlaylist threeCalm [0; 1; 2]%nat calm 2280000).
Proof.
  apply (buildPlaylist_distinct_ids threeCalm [0; 1; 2]%nat calm 2280000).
  unfold distinctIds. vm_compute.
  repeat (apply List.NoDup_cons;
          [simpl; intros H; repeat destruct H as [H|H]; try discriminate H;
           exact H|]).
  apply List.NoDup_nil.
Defined.

(** C4, as stated, fails: two distinct records with the same [id] that both
    fit are both selected by the greedy walk. *)
Lemma buildPlaylist_repeats_id :
  id (twoSameId 0%nat) = id (twoSameId 1%nat)
  /\ buildPlaylist twoSameId [0; 1]%nat calm 2280000 = [0; 1]%nat
  /\ ~ distinctIds twoSameId (buildPlaylist twoSameId [0; 1]%nat calm 2280000).
Proof.
  split; [reflexivity|]. split; [reflexivity|].
  intros Hnd.
  change (List.NoDup [id (twoSameId 0%nat); id (twoSameId 1%nat)]) in Hnd.
  apply List.NoDup_cons_iff in Hnd. destruct Hnd as [Hnot _].
  apply Hnot. left. reflexivity.
Qed.

(** ** Tracks of duration 0 *)





(** ** What the result depends on *)

Lemma sort_insert_ext {A : Type} (cmp cmp' : A -> A -> Q) (x : A) (l : list A) :
  (forall y, In y l -> cmp x y = cmp' x y) ->
  sort_insert cmp x l = sort_insert cmp' x l.
Proof.
  induction l as [|y l IH]; simpl; intros Hext; [reflexivity|].
  rewrite <- (Hext y (or_introl eq_refl)).
  destruct (Qlt_bool 0 (cmp x y)); [|reflexivity].
  f_equal. apply IH. intros z Hz. apply Hext. right. exact Hz.
Qed.

Lemma sort_ext {A : Type} (cmp cmp' : A -> A -> Q) (l : list A) :
  (forall x y, In x l -> In y l -> cmp x y = cmp' x y) ->
  sort cmp l = sort cmp' l.
Proof.
  induction l as [|x l IH]; simpl; intros Hext; [reflexivity|].
  rewrite IH by (intros y z Hy Hz; apply Hext; right; assumption).
  apply sort_insert_ext. intros y Hy.
  apply sort_In in Hy. apply Hext; [left; reflexivity | right; exact Hy].
Qed.

Lemma find_ext_In {A : Type} (p q : A -> bool) (l : list A) :
  (forall x, In x l -> p x = q x) -> List.find p l = List.find q l.
Proof.
  induction l as [|x l IH]; simpl; intros Hext; [reflexivity|].
  rewrite <- (Hext x (or_introl eq_refl)).
  destruct (p x); [reflexivity|].
  apply IH. intros y Hy. apply Hext. right. exact Hy.
Qed.

Lemma pack_ext (h h' : heap) (sorted : list ref) (t : Z)
    (rest pl : list ref) (cur : Z) :
  (forall x, In x sorted -> duration_ms (h' x) = duration_ms (h x)) ->
  (forall x, In x rest -> In x sorted) ->
  pack h' sorted t rest pl cur = pack h sorted t rest pl cur.
Proof.
  intros Hd. revert pl cur.
  induction rest as [|x rest IH]; intros pl cur Hsub; simpl; [reflexivity|].
  rewrite (Hd x) by (apply Hsub; left; reflexivity).
  destruct (cur + duration_ms (h x) <=? t)%Z.
  - apply IH. intros y Hy. apply Hsub. right. exact Hy.
  - rewrite (find_ext_In (fits h' pl (t - cur)) (fits h pl (t - cur))).
    + destruct (List.find _ sorted) as [p|] eqn:E; [|reflexivity].
      apply find_some in E. rewrite (Hd p) by tauto. reflexivity.
    + intros y Hy. unfold fits. rewrite (Hd y Hy). reflexivity.
Qed.

(** The result is determined by the objects the input array refers to. *)
Lemma buildPlaylist_ext (h h' : heap) (songs : list ref) (m : SessionType)
    (t : Z) :
  (forall x, In x songs -> h' x = h x) ->
  buildPlaylist h' songs m t = buildPlaylist h songs m t.
Proof.
  intros Hext.
  assert (Hf : filteredSongs h' songs m = filteredSongs h songs m).
  { unfold filteredSongs. apply filter_ext_in.
    intros x Hx. rewrite (Hext x Hx). reflexivity. }
  assert (Hs : sortedSongs h' songs m = sortedSongs h songs m).
  { unfold sortedSongs. rewrite Hf. apply sort_ext.
    intros x y Hx Hy. unfold filteredSongs in Hx, Hy.
    apply filter_In in Hx. apply filter_In in Hy.
    unfold compareEnergy.
    rewrite (Hext x) by tauto. rewrite (Hext y) by tauto. reflexivity. }
  unfold buildPlaylist. cbv zeta. rewrite Hs.
  rewrite (pack_ext h h'); [reflexivity| |trivial].
  intros x Hx. apply sortedSongs_In in Hx. rewrite (Hext x) by tauto.
  reflexivity.
Qed.

(** ** The store: what [buildPlaylist] allocates and what it leaves alone *)

Lemma lookup_fresh {A : Type} (old l : list A) (i : nat) :
  (old ++ l) !! (length old + i)%nat = l !! i.
Proof. induction old as [|x old IH]; simpl; [reflexivity | exact IH]. Qed.

Lemma insert_fresh {A : Type} (old l : list A) (i : nat) (x : A) :
  <[(length old + i)%nat := x]> (old ++ l) = old ++ <[i := x]> l.
Proof.
  induction old as [|y old IH]; simpl; [reflexivity|].
  f_equal. exact IH.
Qed.

Lemma lookup_old {A : Type} (old l : list A) (i : nat) (x : A) :
  old !! i = Some x -> (old ++ l) !! i = Some x.
Proof.
  revert i. induction old as [|y old IH]; intros [|i]; simpl;
    try discriminate; auto.
Qed.

Lemma lookup_length_None {A : Type} (old : list A) :
  old !! length old = None.
Proof. induction old as [|y old IH]; simpl; [reflexivity | exact IH]. Qed.

Section StoreSteps.
Variables (h : heap) (old : list (list ref)).

Lemma arrayFilter_old (p : ref -> bool) (a : loc) (l : list ref) :
  old !! a = Some l ->
  arrayFilter p a (mkStore h old)
  = Some (length old, mkStore h (old ++ [List.filter p l])).
Proof.
  intros Ha. unfold arrayFilter, bind, readArray, newArray. simpl.
  rewrite Ha. reflexivity.
Qed.

Lemma arraySpread_fresh (f : list ref) :
  arraySpread (length old) (mkStore h (old ++ [f]))
  = Some ((length old + 1)%nat, mkStore h (old ++ [f; f])).
Proof.
  unfold arraySpread, bind, readArray, newArray. simpl.
  rewrite <- (Nat.add_0_r (length old)) at 1.
  rewrite lookup_fresh. simpl.
  rewrite length_app, <- app_assoc. reflexivity.
Qed.

Lemma arraySort_fresh (cmp : ref -> ref -> Q) (f c : list ref) :
  arraySort cmp (length old + 1)%nat (mkStore h (old ++ [f; c]))
  = Some ((length old + 1)%nat, mkStore h (old ++ [f; sort cmp c])).
Proof.
  unfold arraySort, bind, readArray, writeArray, ret. simpl.
  rewrite lookup_fresh. simpl. rewrite lookup_fresh. simpl.
  rewrite insert_fresh. reflexivity.
Qed.

Lemma newArray_fresh (f c l : list ref) :
  newArray l (mkStore h (old ++ [f; c]))
  = Some ((length old + 2)%nat, mkStore h (old ++ [f; c; l])).
Proof.
  unfold newArray. simpl. rewrite length_app, <- app_assoc. reflexivity.
Qed.

Lemma readArray_sorted (f c pl : list ref) :
  readArray (length old + 1)%nat (mkStore h (old ++ [f; c; pl]))
  = Some (c, mkStore h (old ++ [f; c; pl])).
Proof.
  unfold readArray. simpl. rewrite lookup_fresh. reflexivity.
Qed.

Lemma readArray_playlist (f c pl : list ref) :
  readArray (length old + 2)%nat (mkStore h (old ++ [f; c; pl]))
  = Some (pl, mkStore h (old ++ [f; c; pl])).
Proof.
  unfold readArray. simpl. rewrite lookup_fresh. reflexivity.
Qed.

Lemma arrayPush_playlist (f c pl : list ref) (x : ref) :
  arrayPush (length old + 2)%nat x (mkStore h (old ++ [f; c; pl]))
  = Some (tt, mkStore h (old ++ [f; c; pl ++ [x]])).
Proof.
  unfold arrayPush, bind. rewrite readArray_playlist.
  unfold writeArray. simpl. rewrite lookup_fresh. simpl.
  rewrite insert_fresh. reflexivity.
Qed.

Lemma arrayFind_sorted (p : ref -> bool) (f c pl : list ref) :
  arrayFind p (length old + 1)%nat (mkStore h (old ++ [f; c; pl]))
  = Some (List.find p c, mkStore h (old ++ [f; c; pl])).
Proof.
  unfold arrayFind, bind. rewrite readArray_sorted. reflexivity.
Qed.

(** The loop over the store does what [pack] does, on the array
    [playlist] alone. *)
Lemma packM_pack (f c : list ref) (t : Z) (rest pl : list ref) (cur : Z) :
  packM h (length old + 1)%nat (length old + 2)%nat t rest cur
    (mkStore h (old ++ [f; c; pl]))
  = Some (snd (pack h c t rest pl cur),
          mkStore h (old ++ [f; c; fst (pack h c t rest pl cur)])).
Proof.
  revert pl cur. induction rest as [|x rest IH]; intros pl cur; simpl.
  - reflexivity.
  - destruct (cur + duration_ms (h x) <=? t)%Z.
    + unfold bind at 1. rewrite arrayPush_playlist. apply IH.
    + unfold bind at 1. rewrite readArray_playlist.
      unfold bind at 1. rewrite arrayFind_sorted.
      destruct (List.find _ c) as [p|]; simpl.
      * unfold bind. rewrite arrayPush_playlist. reflexivity.
      * reflexivity.
Qed.

Lemma buildPlaylistM_run (songs : loc) (l : list ref) (m : SessionType)
    (t : Z) :
  old !! songs = Some l ->
  buildPlaylistM songs m t (mkStore h old)
  = Some ((length old + 2)%nat,
          mkStore h (old ++ [filteredSongs h l m; sortedSongs h l m;
                             buildPlaylist h l m t])).
Proof.
  intros Hsongs. unfold buildPlaylistM.
  unfold bind at 1. unfold getObjects. cbn [objects].
  unfold bind at 1. rewrite (arrayFilter_old _ _ _ Hsongs).
  unfold bind at 1. rewrite arraySpread_fresh.
  unfold bind at 1. rewrite arraySort_fresh.
  unfold bind at 1. rewrite newArray_fresh.
  unfold bind at 1. rewrite readArray_sorted.
  unfold bind at 1. rewrite packM_pack.
  reflexivity.
Qed.
End StoreSteps.

(** C9: [buildPlaylist] leaves its input alone.  Run on any store in which
    [songs] is an array, it returns a newly allocated array holding the
    result; the song objects are unchanged, and so is every array that
    existed before the call, [songs] among them: the sort works on a copy.
    The result is a function of the input array and of the objects it
    refers to, and of nothing else in the store. *)
Theorem buildPlaylistM_frame (s : store) (songs : loc) (l : list ref)
    (m : SessionType) (t : Z) :
  arrays s !! songs = Some l ->
  exists (playlist : loc) (s' : store),
    buildPlaylistM songs m t s = Some (playlist, s')
    /\ objects s' = objects s
    /\ arrays s' !! songs = Some l
    /\ (forall (a : loc) (contents : list ref),
          arrays s !! a = Some contents -> arrays s' !! a = Some contents)
    /\ arrays s !! playlist = None
    /\ arrays s' !! playlist = Some (buildPlaylist (objects s) l m t)
    /\ (forall h' : heap,
          (forall x, In x l -> h' x = objects s x) ->
          buildPlaylist h' l m t = buildPlaylist (objects s) l m t).
Proof.
  destruct s as [h old]. simpl. intros Hsongs.
  eexists _, _. split; [apply buildPlaylistM_run, Hsongs|]. simpl.
  split; [reflexivity|].
  split; [apply lookup_old, Hsongs|].
  split; [intros a contents Ha; apply lookup_old, Ha|].
  split; [apply lookup_ge_None; lia|].
  split; [rewrite lookup_fresh; reflexivity|].
  intros h' Hext. apply buildPlaylist_ext, Hext.
Qed.

Lemma buildPlaylistM_frame_witness :
  exists (playlist : loc) (s' : store),
    buildPlaylistM 0%nat calm 2280000 (mkStore threeCalm [[2; 0; 1]%nat])
    = Some (playlist, s')
    /\ objects s' = threeCalm
    /\ arrays s' !! 0%nat = Some [2; 0; 1]%nat
    /\ (forall (a : loc) (contents : list ref),
          [[2; 0; 1]%nat] !! a = Some contents ->
          arrays s' !! a = Some contents)
    /\ [[2; 0; 1]%nat] !! playlist = None
    /\ arrays s' !! playlist
       = Some (buildPlaylist threeCalm [2; 0; 1]%nat calm 2280000)
    /\ (forall h' : heap,
          (forall x, In x [2; 0; 1]%nat -> h' x = threeCalm x) ->
          buildPlaylist h' [2; 0; 1]%nat calm 2280000
          = buildPlaylist threeCalm [2; 0; 1]%nat calm 2280000).
Proof.
  apply (buildPlaylistM_frame (mkStore threeCalm [[2; 0; 1]%nat]) 0%nat
           [2; 0; 1]%nat calm 2280000).
  reflexivity.
Defined.

(** The run of the example: the input array is as it was, the copy is
    sorted, the result is new. *)
Example buildPlaylistM_example :
  option_map (fun r => (fst r, arrays (snd r)))
    (buildPlaylistM 0%nat calm 2280000 (mkStore threeCalm [[2; 0; 1]%nat]))
  = Some (3%nat,
          [[2; 0; 1]; [2; 0; 1]; [0; 1; 2]; [0; 1]]%nat).
Proof. reflexivity. Qed.

(** ** Scenarios *)

(** Three calm tracks of 600000, 900000 and 900000 ms against the default
    target: the third would overflow, no track fits the remaining 780000 ms,
    and the result is the first two, 1500000 ms in all. *)
Example buildPlaylist_three_calm :
  buildPlaylist threeCalm [0; 1; 2]%nat calm defaultTargetDurationMs
  = [0; 1]%nat
  /\ totalDuration threeCalm
       (buildPlaylist threeCalm [0; 1; 2]%nat calm defaultTargetDurationMs)
     = 1500000%Z.
Proof. split; reflexivity. Qed.

(** A single track of 2000000 ms of the target mood is returned alone. *)
Example buildPlaylist_single_track :
  buildPlaylist (heapOf [song "one" 2000000 0.3]) [0]%nat calm
    defaultTargetDurationMs
  = [0]%nat.
Proof. reflexivity. Qed.

(** Membership is by reference: in the fallback search a second object
    equal to a chosen one in every field is still eligible, and an object
    that occurs twice in the input is taken twice by the greedy walk. *)
Example buildPlaylist_fallback_by_reference :
  let h := heapOf [song "a" 1000 0.1; song "b" 5000 0.2; song "a" 1000 0.1] in
  sortedSongs h [0; 1; 2]%nat calm = [0; 2; 1]%nat
  /\ buildPlaylist h [0; 1; 2]%nat calm 2500 = [0; 2]%nat
  /\ buildPlaylist h [0; 1; 0]%nat calm 2500 = [0; 0]%nat.
Proof. repeat split; reflexivity. Qed.

(** The running total the loop keeps is the sum of the chosen durations. *)
Lemma pack_currentDuration (h : heap) (sorted : list ref) (t : Z)
    (rest pl : list ref) (cur : Z) :
  cur = totalDuration h pl ->
  snd (pack h sorted t rest pl cur)
  = totalDuration h (fst (pack h sorted t rest pl cur)).
Proof.
  revert pl cur. induction rest as [|x rest IH]; intros pl cur Hcur; simpl.
  - exact Hcur.
  - destruct (cur + duration_ms (h x) <=? t)%Z.
    + apply IH. rewrite totalDuration_app. simpl. lia.
    + destruct (List.find _ sorted) as [p|]; simpl; [|exact Hcur].
      rewrite totalDuration_app. simpl. lia.
Qed.


(** ** Further properties of the assembler *)

Lemma StronglySorted_sublist {A : Type} (R : A -> A -> Prop) (l1 l2 : list A) :
  l1 `sublist_of` l2 -> StronglySorted R l2 -> StronglySorted R l1.
Proof.
  induction 1 as [|x l1 l2 Hsub IH|x l1 l2 Hsub IH]; intros Hs.
  - constructor.
  - apply StronglySorted_inv in Hs. destruct Hs as [Hs Hx].
    constructor; [apply IH, Hs|].
    rewrite List.Forall_forall in Hx |- *. intros y Hy. apply Hx.
    apply list_elem_of_In. eapply elem_of_sublist; [|exact Hsub].
    apply list_elem_of_In, Hy.
  - apply StronglySorted_inv in Hs. apply IH, Hs.
Qed.

Lemma StronglySorted_impl {A : Type} (R S : A -> A -> Prop) (l : list A) :
  (forall x y, R x y -> S x y) -> StronglySorted R l -> StronglySorted S l.
Proof.
  intros HRS. induction 1 as [|x l Hl IH Hx]; constructor; [exact IH|].
  rewrite List.Forall_forall in Hx |- *. intros y Hy. apply HRS, Hx, Hy.
Qed.

Lemma In_singleton_sublist {A : Type} (x : A) (l : list A) :
  In x l -> [x] `sublist_of` l.
Proof.
  induction l as [|y l IH]; simpl; [tauto|].
  intros [->|Hx].
  - apply sublist_skip, sublist_nil_l.
  - apply sublist_cons, IH, Hx.
Qed.

(** Where the fallback track comes from: behind the candidate that
    overflowed, and shorter than it. *)
Lemma fallback_behind (h : heap) (sorted : list ref) (t : Z)
    (pre : list ref) (c : ref) (post : list ref) (p : ref) :
  sorted = pre ++ c :: post ->
  (t < totalDuration h pre + duration_ms (h c))%Z ->
  In p (fallback h sorted t pre) ->
  In p post
  /\ (duration_ms (h p) <= t - totalDuration h pre)%Z
  /\ (duration_ms (h p) < duration_ms (h c))%Z.
Proof.
  intros Hs Hover Hp.
  destruct (fallback_cases h sorted t pre)
    as [[E _] | (q & E & Hq & Hd & Hnot)]; rewrite E in Hp; simpl in Hp;
    [tauto|].
  destruct Hp as [<-|[]].
  split; [|split; [exact Hd | lia]].
  rewrite Hs in Hq. apply in_app_or in Hq.
  destruct Hq as [Hq|[Hq|Hq]]; [tauto| |exact Hq].
  subst q. lia.
Qed.

Lemma buildPlaylist_sublist (h : heap) (songs : list ref) (m : SessionType)
    (t : Z) :
  buildPlaylist h songs m t `sublist_of` sortedSongs h songs m.
Proof.
  destruct (buildPlaylist_shape h songs m t)
    as [[_ ->] | (pre & c & post & Hs & _ & Hover & ->)]; [reflexivity|].
  destruct (fallback_cases h (sortedSongs h songs m) t pre)
    as [[E _] | (p & E & _)].
  - rewrite E, app_nil_r, Hs. apply sublist_inserts_r. reflexivity.
  - assert (Hp : In p (fallback h (sortedSongs h songs m) t pre)).
    { rewrite E. left. reflexivity. }
    apply (fallback_behind h _ t pre c post p Hs Hover) in Hp.
    rewrite E, Hs.
    apply sublist_app; [reflexivity|].
    apply sublist_cons, In_singleton_sublist. tauto.
Qed.

Lemma buildPlaylist_sorted (h : heap) (songs : list ref) (m : SessionType)
    (t : Z) :
  StronglySorted (energyOrder h m) (buildPlaylist h songs m t).
Proof.
  eapply StronglySorted_sublist;
    [apply buildPlaylist_sublist | apply sortedSongs_sorted].
Qed.

(** After every track of the result the running total is within the
    target, also for a negative target. *)
Lemma buildPlaylist_allTaken (h : heap) (songs : list ref) (m : SessionType)
    (t : Z) :
  allTaken h t (buildPlaylist h songs m t).
Proof.
  destruct (buildPlaylist_shape h songs m t)
    as [[Hall ->] | (pre & c & post & _ & Hall & _ & ->)]; [exact Hall|].
  destruct (fallback_cases h (sortedSongs h songs m) t pre)
    as [[-> _] | (p & -> & _ & Hd & _)].
  - rewrite app_nil_r. exact Hall.
  - apply accepted_allTaken, accepted_app.
    apply accepted_allTaken in Hall. split; [exact Hall|]. simpl. lia.
Qed.

Lemma filter_all {A : Type} (p : A -> bool) (l : list A) :
  (forall x, In x l -> p x = true) -> List.filter p l = l.
Proof.
  induction l as [|x l IH]; simpl; intros Hall; [reflexivity|].
  rewrite (Hall x (or_introl eq_refl)). f_equal.
  apply IH. intros y Hy. apply Hall. right. exact Hy.
Qed.

Lemma sort_sorted_id {A : Type} (cmp : A -> A -> Q) (l : list A) :
  StronglySorted (fun x y => Qlt_bool 0 (cmp x y) = false) l ->
  sort cmp l = l.
Proof.
  induction 1 as [|x l Hl IH Hx]; simpl; [reflexivity|].
  rewrite IH. destruct l as [|y l]; simpl; [reflexivity|].
  apply Forall_inv in Hx. rewrite Hx. reflexivity.
Qed.

Lemma energyOrder_compare (h : heap) (m : SessionType) (x y : ref) :
  energyOrder h m x y -> Qlt_bool 0 (compareEnergy h m x y) = false.
Proof.
  intros Hle. apply Qlt_bool_false_iff.
  unfold compareEnergy. destruct m; simpl in *.
  - apply Qle_minus_iff in Hle. apply Qle_minus_iff.
    assert (E : (0 + - (energy (h x) - energy (h y))
                 == energy (h y) + - energy (h x))%Q) by ring.
    rewrite E. exact Hle.
  - apply Qle_minus_iff in Hle. apply Qle_minus_iff.
    assert (E : (0 + - (energy (h y) - energy (h x))
                 == energy (h x) + - energy (h y))%Q) by ring.
    rewrite E. exact Hle.
Qed.

(** X1: the whole result, fallback track included, is the sorted
    candidates with some left out; so the result is itself in energy order
    (ascending for [calm], descending for [building]). *)
Theorem buildPlaylist_in_energy_order (h : heap) (songs : list ref)
    (m : SessionType) (t : Z) :
  buildPlaylist h songs m t `sublist_of` sortedSongs h songs m
  /\ StronglySorted (energyOrder h m) (buildPlaylist h songs m t).
Proof.
  split; [apply buildPlaylist_sublist | apply buildPlaylist_sorted].
Qed.

(** X2: running the assembler on its own result, with the same mood and
    target, returns that result unchanged. *)
Theorem buildPlaylist_idempotent (h : heap) (songs : list ref)
    (m : SessionType) (t : Z) :
  buildPlaylist h (buildPlaylist h songs m t) m t = buildPlaylist h songs m t.
Proof.
  set (r := buildPlaylist h songs m t).
  assert (Hf : filteredSongs h r m = r).
  { unfold filteredSongs. apply filter_all. intros x Hx.
    apply SessionType_eqb_eq.
    apply buildPlaylist_In_sorted, sortedSongs_In in Hx. tauto. }
  assert (Hs : sortedSongs h r m = r).
  { unfold sortedSongs. rewrite Hf. apply sort_sorted_id.
    eapply StronglySorted_impl; [|apply buildPlaylist_sorted].
    intros x y Hxy. apply energyOrder_compare, Hxy. }
  rewrite <- Hs at 2. apply buildPlaylist_all_taken.
  rewrite Hs. apply buildPlaylist_allTaken.
Qed.





(** X4: when no object occurs twice in the input array, none occurs twice
    in the result. *)
Theorem buildPlaylist_no_repeated_object (h : heap) (songs : list ref)
    (m : SessionType) (t : Z) :
  List.NoDup songs -> List.NoDup (buildPlaylist h songs m t).
Proof.
  intros Hnd.
  apply NoDup_ListNoDup.
  eapply sublist_NoDup; [|apply buildPlaylist_sublist].
  apply NoDup_ListNoDup.
  eapply Permutation_NoDup;
    [apply Permutation_sym, sortedSongs_perm|].
  unfold filteredSongs. apply List.NoDup_filter, Hnd.
Qed.

Lemma buildPlaylist_no_repeated_object_witness :
  List.NoDup (buildPlaylist longMiddle [0; 1; 2]%nat calm 2000).
Proof.
  apply (buildPlaylist_no_repeated_object longMiddle [0; 1; 2]%nat calm 2000).
  repeat (apply List.NoDup_cons;
          [simpl; intros H; repeat destruct H as [H|H]; try discriminate H;
           exact H|]).
  apply List.NoDup_nil.
Defined.






(** ** formatDuration *)

(** Linear arithmetic with quotients and remainders by constants. *)
Ltac zlia := Z.div_mod_to_equations; lia.














Example formatDuration_examples :
  formatDuration 0 = "0:00"%string
  /\ formatDuration 59999 = "0:59"%string
  /\ formatDuration 60000 = "1:00"%string
  /\ formatDuration 3725000 = "62:05"%string.
Proof. repeat split; reflexivity. Qed.


(** ** filterTracksBySaunaType *)

Lemma filterTracksBySaunaType_In (tracks : list Track) (st : SaunaSessionType)
    (x : Track) :
  In x (filterTracksBySaunaType tracks st)
  <-> In x tracks
      /\ match st with
         | relaxing => isRelaxing x
         | energizing => isEnergizing x
         | balanced => isBalanced x
         end = true.
Proof. destruct st; simpl; apply filter_In. Qed.

(** X9: whatever the session type, a kept track comes from the input and
    has both its energy and its tempo defined; a track without audio
    features is never kept. *)
Theorem filterTracksBySaunaType_needs_features (tracks : list Track)
    (st : SaunaSessionType) (x : Track) :
  In x (filterTracksBySaunaType tracks st) ->
  In x tracks
  /\ exists f e t,
       audioFeatures x = Some f /\ tf_energy f = Some e /\ tf_tempo f = Some t.
Proof.
  intros Hx. apply filterTracksBySaunaType_In in Hx. destruct Hx as [Hin Hp].
  split; [exact Hin|].
  assert (Hdef : exists e t, trackEnergy x = Some e /\ trackTempo x = Some t).
  { destruct st; [unfold isRelaxing in Hp | unfold isEnergizing in Hp
                  | unfold isBalanced in Hp];
      destruct (trackEnergy x) as [e|]; try discriminate;
      destruct (trackTempo x) as [t|]; try discriminate; eauto. }
  destruct Hdef as (e & t & He & Ht).
  unfold trackEnergy, trackTempo in He, Ht.
  destruct (audioFeatures x) as [f|]; [|discriminate].
  exists f, e, t. auto.
Qed.

Lemma filterTracksBySaunaType_needs_features_witness :
  In quietTrack [quietTrack]
  /\ exists f e t,
       audioFeatures quietTrack = Some f
       /\ tf_energy f = Some e /\ tf_tempo f = Some t.
Proof.
  apply (filterTracksBySaunaType_needs_features [quietTrack] relaxing
           quietTrack).
  left. reflexivity.
Defined.

(** X10: no track is kept both for a relaxing and for an energizing
    session. *)
Theorem relaxing_energizing_disjoint (tracks tracks' : list Track) (x : Track) :
  In x (filterTracksBySaunaType tracks relaxing) ->
  ~ In x (filterTracksBySaunaType tracks' energizing).
Proof.
  intros Hr He.
  apply filterTracksBySaunaType_In in Hr. destruct Hr as [_ Hr].
  apply filterTracksBySaunaType_In in He. destruct He as [_ He].
  unfold isRelaxing in Hr. unfold isEnergizing in He.
  destruct (trackEnergy x) as [e|]; [|discriminate].
  destruct (trackTempo x) as [t|]; [|discriminate].
  apply andb_true_iff in Hr. destruct Hr as [Hr _].
  apply andb_true_iff in He. destruct He as [He _].
  apply Qlt_bool_iff in Hr. apply Qlt_bool_iff in He.
  assert (Hlt : (0.6 < 0.5)%Q) by (eapply Qlt_trans; eassumption).
  revert Hlt. vm_compute. discriminate.
Qed.

Lemma relaxing_energizing_disjoint_witness :
  ~ In quietTrack (filterTracksBySaunaType [quietTrack] energizing).
Proof.
  apply (relaxing_energizing_disjoint [quietTrack] [quietTrack] quietTrack).
  left. reflexivity.
Defined.

(** A balanced session shares tracks with each of the other two. *)
Example balanced_overlaps :
  let slow := mkTrack "s" (Some (mkTrackFeatures (Some 0.45%Q) (Some 95%Q))) in
  let fast := mkTrack "f" (Some (mkTrackFeatures (Some 0.65%Q) (Some 115%Q))) in
  filterTracksBySaunaType [slow; fast] relaxing = [slow]
  /\ filterTracksBySaunaType [slow; fast] energizing = [fast]
  /\ filterTracksBySaunaType [slow; fast] balanced = [slow; fast].
Proof. repeat split; reflexivity. Qed.

(** X11: the page and the classifier agree on quiet tracks: a track kept
    for a relaxing session is [calm] for [classifySong], whatever its other
    features. *)
Theorem relaxing_is_calm (tracks : list Track) (x : Track)
    (analysis : SongAnalysis) :
  In x (filterTracksBySaunaType tracks relaxing) ->
  trackEnergy x = Some (energy analysis) ->
  trackTempo x = Some (tempo analysis) ->
  classifySong analysis = calm.
Proof.
  intros Hx He Ht.
  apply filterTracksBySaunaType_In in Hx. destruct Hx as [_ Hx].
  unfold isRelaxing in Hx. rewrite He, Ht in Hx.
  apply andb_true_iff in Hx. destruct Hx as [_ Htempo].
  unfold classifySong. rewrite Htempo. reflexivity.
Qed.

Lemma relaxing_is_calm_witness :
  classifySong (song "a" 1000 0.3) = calm.
Proof.
  apply (relaxing_is_calm [quietTrack] quietTrack (song "a" 1000 0.3)).
  - left. reflexivity.
  - reflexivity.
  - reflexivity.
Defined.

(** An energizing track need not be [building]: the classifier also looks
    at acousticness and instrumentalness. *)
Example energizing_not_building :
  isEnergizing (mkTrack "e" (Some (mkTrackFeatures (Some 0.8%Q) (Some 130%Q))))
  = true
  /\ classifySong
       {| id := "e"; name := "e"; artists := []; duration_ms := 1;
          tempo := 130; energy := 0.8; acousticness := 0.7;
          instrumentalness := 0; valence := 0.5; uri := "e" |} = calm.
Proof. split; reflexivity. Qed.


(** ** create-playlist.ts *)

Lemma slice_length {A : Type} (i : nat) (l : list A) :
  length (slice i (i + 100) l) = Nat.min 100 (length l - i).
Proof.
  unfold slice. rewrite length_take, length_drop.
  replace (i + 100 - i)%nat with 100%nat by lia. reflexivity.
Qed.

Lemma slice_drop {A : Type} (i : nat) (l : list A) :
  slice i (i + 100) l ++ drop (i + 100) l = drop i l.
Proof.
  unfold slice. replace (i + 100 - i)%nat with 100%nat by lia.
  rewrite <- (take_drop 100 (drop i l)) at 2.
  rewrite drop_drop. reflexivity.
Qed.

Lemma allReturn_app (sp : SpotifyApi) (hist cs1 cs2 : list call) :
  allReturn sp hist (cs1 ++ cs2)
  <-> allReturn sp hist cs1 /\ allReturn sp (hist ++ cs1) cs2.
Proof.
  revert hist. induction cs1 as [|c cs1 IH]; intros hist; simpl.
  - rewrite app_nil_r. tauto.
  - rewrite IH, <- app_assoc. simpl. tauto.
Qed.

(** What the batch loop does from index [i] on, given fuel for the tracks
    that are left: it sends the successive slices of 100, and ends either
    after the last of them or at the first call that throws. *)
Lemma addBatches_spec (sp : SpotifyApi) (pid : string) (uris : list string) :
  forall (fuel i : nat) (tr : list call),
    (length uris - i <= fuel)%nat ->
    exists (bs : list (list string)) (r : thrown + unit),
      addBatches sp pid uris fuel i tr
      = Some (r, tr ++ map (AddItemsToPlaylist pid) bs)
      /\ (forall k b, bs !! k = Some b ->
                      b = slice (i + 100 * k) (i + 100 * k + 100) uris
                      /\ (i + 100 * k < length uris)%nat)
      /\ match r with
         | inr _ =>
             allReturn sp tr (map (AddItemsToPlaylist pid) bs)
             /\ concat bs = drop i uris
         | inl e =>
             exists bs' b,
               bs = bs' ++ [b]
               /\ allReturn sp tr (map (AddItemsToPlaylist pid) bs')
               /\ callThrows sp (tr ++ map (AddItemsToPlaylist pid) bs')
                    (AddItemsToPlaylist pid b) = Some e
         end.
Proof.
  induction fuel as [|fuel IH]; intros i tr Hfuel.
  - simpl. destruct (i <? length uris)%nat eqn:Hi.
    + apply Nat.ltb_lt in Hi. lia.
    + apply Nat.ltb_ge in Hi.
      exists [], (inr tt). simpl. rewrite app_nil_r.
      split; [reflexivity|]. split; [intros k b Hk; discriminate Hk|].
      split; [exact I|]. symmetry. apply drop_ge. exact Hi.
  - simpl. destruct (i <? length uris)%nat eqn:Hi.
    + apply Nat.ltb_lt in Hi.
      set (batch := slice i (i + 100) uris).
      unfold bindH at 1. unfold request at 1.
      destruct (playlists_addItemsToPlaylist sp tr pid batch) as [e|[]] eqn:Hcall.
      * exists [batch], (inl e). simpl.
        split; [reflexivity|]. split.
        { intros [|k] b Hk; simpl in Hk; [|discriminate Hk].
          injection Hk as <-.
          split; [unfold batch; f_equal; lia | lia]. }
        exists [], batch. simpl. rewrite app_nil_r, Hcall. auto.
      * destruct (IH (i + 100)%nat (tr ++ [AddItemsToPlaylist pid batch]))
          as (bs & r & Hrun & Hslices & Hr); [lia|].
        exists (batch :: bs), r. simpl.
        split; [rewrite Hrun, <- app_assoc; reflexivity|]. split.
        { intros [|k] b Hk; simpl in Hk.
          - injection Hk as <-.
            split; [unfold batch; f_equal; lia | lia].
          - destruct (Hslices k b Hk) as [-> Hlt].
            split; [f_equal; lia | lia]. }
        destruct r as [e|u].
        { destruct Hr as (bs' & b & -> & Hret & Hthrow).
          exists (batch :: bs'), b. simpl.
          split; [reflexivity|]. rewrite Hcall.
          split; [split; [reflexivity | exact Hret]|].
          rewrite <- app_assoc in Hthrow. exact Hthrow. }
        { destruct Hr as [Hret Hcat]. rewrite Hcall.
          split; [split; [reflexivity | exact Hret]|].
          rewrite Hcat. apply slice_drop. }
    + apply Nat.ltb_ge in Hi.
      exists [], (inr tt). simpl. rewrite app_nil_r.
      split; [reflexivity|]. split; [intros k b Hk; discriminate Hk|].
      split; [exact I|]. symmetry. apply drop_ge. exact Hi.
Qed.

Lemma truthyString_Some (s : option string) :
  truthyString s = true <-> exists s', s = Some s' /\ s' <> EmptyString.
Proof.
  destruct s as [s'|]; simpl.
  - rewrite negb_true_iff. split.
    + intros Hne. exists s'. split; [reflexivity|].
      intros ->. rewrite String.eqb_refl in Hne. discriminate.
    + intros (s'' & [= <-] & Hne). apply String.eqb_neq, Hne.
  - split; [discriminate | intros (s' & H & _); discriminate H].
Qed.

(** Every request ends in one of the outcomes. *)
Lemma createPlaylistHandler_run (env : Env) (req : CreatePlaylistRequest) :
  exists resp tr,
    createPlaylistHandler env req = Some (resp, tr)
    /\ createPlaylistOutcome env req resp tr.
Proof.
  unfold createPlaylistHandler.
  destruct (String.eqb (cr_method req) "POST") eqn:Hm; cbn [negb].
  2: { apply String.eqb_neq in Hm. eexists _, _. split; [reflexivity|].
       apply cpo_method, Hm. }
  apply String.eqb_eq in Hm.
  unfold createPlaylistTry. unfold bindH at 1. unfold settle.
  destruct (getToken env) as [e|[token|]] eqn:Htok; cbv beta iota.
  - eexists _, _. split; [reflexivity|]. apply cpo_getToken_throws; assumption.
  - destruct (truthyString (jwt_accessToken token)) eqn:Hacc; cbn [negb].
    2: { eexists _, _. split; [reflexivity|].
         eapply cpo_no_accessToken; eassumption. }
    assert (Hauth : authenticated env token) by (split; assumption).
    destruct (truthyString (cr_name req)) eqn:Hname; cbn [negb orb].
    2: { eexists _, _. split; [reflexivity|].
         eapply cpo_invalid; eauto. }
    destruct (cr_tracks req) as [tracks|] eqn:Htracks.
    2: { eexists _, _. split; [reflexivity|].
         eapply cpo_invalid; eauto. }
    destruct (length tracks =? 0)%nat eqn:Hlen.
    { apply Nat.eqb_eq in Hlen. destruct tracks; [|discriminate Hlen].
      eexists _, _. split; [reflexivity|]. eapply cpo_invalid; eauto. }
    apply Nat.eqb_neq in Hlen.
    apply truthyString_Some in Hname. destruct Hname as (nm & Hnm & Hnm').
    assert (Hbody : validBody req nm tracks).
    { repeat split; try assumption. intros ->. apply Hlen. reflexivity. }
    rewrite Hnm. cbv zeta. cbn [default from_option Datatypes.id].
    set (sp := spotifyFor env token).
    unfold bindH at 1. unfold request at 1.
    destruct (currentUser_profile sp []) as [e|user] eqn:Hprofile.
    { eexists _, _. split; [reflexivity|].
      eapply cpo_profile_throws; eassumption. }
    unfold bindH at 1. unfold request at 1. cbn [app].
    destruct (playlists_createPlaylist sp [CurrentUserProfile] (user_id user)
                nm (descriptionFor req user) false) as [e|playlist] eqn:Hcreate.
    { eexists _, _. split; [reflexivity|].
      eapply cpo_create_throws; eassumption. }
    destruct (addBatches_spec sp (pl_id playlist) (trackUrisOf tracks)
                (length (trackUrisOf tracks)) 0
                [CurrentUserProfile;
                 CreatePlaylist (user_id user) nm (descriptionFor req user)
                   false])
      as (bs & r & Hrun & Hslices & Hr); [lia|].
    unfold bindH. rewrite Hrun.
    destruct r as [e|u].
    + destruct Hr as (sent & batch & -> & Hret & Hthrow).
      eexists _, _. split; [reflexivity|].
      eapply cpo_batch_throws; eassumption.
    + destruct Hr as [Hret Hcat]. rewrite drop_0 in Hcat.
      eexists _, _. split; [reflexivity|].
      eapply cpo_created; eassumption.
  - eexists _, _. split; [reflexivity|]. apply cpo_no_token; assumption.
Qed.

Lemma createPlaylistHandler_outcome (env : Env) (req : CreatePlaylistRequest)
    (resp : Response Playlist) (tr : list call) :
  createPlaylistHandler env req = Some (resp, tr) ->
  createPlaylistOutcome env req resp tr.
Proof.
  intros Hrun.
  destruct (createPlaylistHandler_run env req) as (resp' & tr' & Hrun' & Hout).
  rewrite Hrun in Hrun'. injection Hrun' as -> ->. exact Hout.
Qed.

Lemma createPlaylistCatch_status (e : thrown) :
  status (createPlaylistCatch e) = 403%Z
  \/ status (createPlaylistCatch e) = 500%Z.
Proof.
  unfold createPlaylistCatch. cbv zeta.
  destruct (stringIncludes _ "403"); simpl; auto.
Qed.

Lemma batchesOf_bounds (uris : list string) (bs : list (list string)) :
  batchesOf uris bs -> Forall (fun b => (1 <= length b <= 100)%nat) bs.
Proof.
  intros Hbs. apply Forall_lookup. intros k b Hk.
  destruct (Hbs k b Hk) as [-> Hlt].
  rewrite slice_length. lia.
Qed.

Lemma batchesOf_app_l (uris : list string) (bs1 bs2 : list (list string)) :
  batchesOf uris (bs1 ++ bs2) -> batchesOf uris bs1.
Proof.
  intros Hbs k b Hk. apply Hbs. apply lookup_app_l_Some, Hk.
Qed.


(** X13: Spotify is called only for a POST request that carries an access
    token, a non-empty name and at least one track; the first call is then
    the one for the user's profile. *)
Theorem createPlaylistHandler_calls_only_when_valid (env : Env)
    (req : CreatePlaylistRequest) (resp : Response Playlist) (tr : list call) :
  createPlaylistHandler env req = Some (resp, tr) ->
  tr <> [] ->
  cr_method req = "POST"%string
  /\ exists token playlistName tracks rest,
       authenticated env token
       /\ validBody req playlistName tracks
       /\ tr = CurrentUserProfile :: rest.
Proof.
  intros Hrun Hne. apply createPlaylistHandler_outcome in Hrun.
  destruct Hrun; try (exfalso; apply Hne; reflexivity);
    (split; [assumption|]); eexists _, _, _, _;
    (split; [eassumption|]); (split; [eassumption|]); reflexivity.
Qed.



Lemma createPlaylistHandler_calls_only_when_valid_witness :
  cr_method (requestFor 3) = "POST"%string
  /\ exists token playlistName tracks rest,
       authenticated (envWith acceptingSpotify) token
       /\ validBody (requestFor 3) playlistName tracks
       /\ [CurrentUserProfile;
           CreatePlaylist "user1" "Sauna" "Sauna playlist created for you" false;
           AddItemsToPlaylist "playlist1"
             ["spotify:track:0"; "spotify:track:1"; "spotify:track:2"]%string]
          = CurrentUserProfile :: rest.
Proof.
  apply (createPlaylistHandler_calls_only_when_valid
           (envWith acceptingSpotify) (requestFor 3)
           (jsonPlaylist (mkPlaylist "playlist1" "private"))).
  - vm_compute. reflexivity.
  - discriminate.
Defined.



(** X16: what the page's [createPlaylist] posts is turned down with
    status 400, before any call to Spotify, exactly when the playlist name is
    empty or no analysed track passes the filter of the chosen session
    type. *)
Theorem createPlaylist_nothing_selected (env : Env) (token : JWT)
    (sessionAccessToken : option string) (newPlaylistName : string)
    (analyzedTracks : list Track) (saunaSessionType : SaunaSessionType)
    (req : CreatePlaylistRequest) :
  authenticated env token ->
  createPlaylistPosts sessionAccessToken newPlaylistName analyzedTracks
    saunaSessionType = Some req ->
  (newPlaylistName = EmptyString
   \/ filterTracksBySaunaType analyzedTracks saunaSessionType = [])
  <-> createPlaylistHandler env req
      = Some (jsonError 400 "Invalid request data", []).
Proof.
  intros [Htok Hacc] Hposted.
  unfold createPlaylistPosts in Hposted.
  destruct ((length analyzedTracks =? 0)%nat
            || negb (truthyString sessionAccessToken));
    [discriminate Hposted|].
  injection Hposted as <-.
  set (req := createPlaylistRequestOf newPlaylistName analyzedTracks
                saunaSessionType).
  assert (Hvalid : forall nm tracks,
             validBody req nm tracks ->
             ~ (newPlaylistName = EmptyString
                \/ filterTracksBySaunaType analyzedTracks saunaSessionType = [])).
  { intros nm tracks (Hnm & Hne & Htr & Hne') [->|Hnone].
    - simpl in Hnm. injection Hnm as <-. apply Hne. reflexivity.
    - simpl in Htr. rewrite Hnone in Htr. injection Htr as <-.
      apply Hne'. reflexivity. }
  destruct (createPlaylistHandler_run env req) as (resp & tr & Hrun & Hout).
  rewrite Hrun. split.
  - intros Hnone.
    destruct Hout as [Hm|e _ He|_ He|token' _ He Hf|token' _ _ _
                      |token' nm tracks e _ _ Hb _
                      |token' nm tracks user e _ _ Hb _ _
                      |token' nm tracks user pl sent batch e _ _ Hb _ _ _ _ _
                      |token' nm tracks user pl batches _ _ Hb _ _ _ _ _];
      try reflexivity;
      try (exfalso; apply (Hvalid _ _ Hb); exact Hnone).
    + exfalso. apply Hm. reflexivity.
    + rewrite Htok in He. discriminate He.
    + rewrite Htok in He. discriminate He.
    + rewrite Htok in He. injection He as <-. rewrite Hacc in Hf.
      discriminate Hf.
  - intros E. injection E as Hresp _.
    assert (Hst : status resp = 400%Z) by (rewrite Hresp; reflexivity).
    destruct Hout as [Hm|e _ He|_ He|token' _ He Hf|token' _ _ Hbad
                      |token' nm tracks e _ _ Hb _
                      |token' nm tracks user e _ _ Hb _ _
                      |token' nm tracks user pl sent batch e _ _ Hb _ _ _ _ _
                      |token' nm tracks user pl batches _ _ Hb _ _ _ _ _];
      try (simpl in Hst; discriminate Hst);
      try (destruct (createPlaylistCatch_status e) as [E'|E'];
           rewrite E' in Hst; discriminate Hst).
    destruct Hbad as [Hbad|[Hbad|Hbad]].
    + left. simpl in Hbad. apply negb_false_iff, String.eqb_eq in Hbad.
      exact Hbad.
    + discriminate Hbad.
    + right. simpl in Hbad. injection Hbad as Hbad.
      apply map_eq_nil in Hbad. exact Hbad.
Qed.

Lemma createPlaylist_nothing_selected_witness :
  createPlaylistHandler (envWith acceptingSpotify)
    (createPlaylistRequestOf "Sauna" [quietTrack] energizing)
  = Some (jsonError 400 "Invalid request data", []).
Proof.
  apply (createPlaylist_nothing_selected (envWith acceptingSpotify) signedIn
           (Some "access"%string) "Sauna" [quietTrack] energizing).
  - split; reflexivity.
  - reflexivity.
  - right. reflexivity.
Defined.


(** ** source-playlist.ts *)

Lemma pageRequests_S (pid : string) (offset n : nat) :
  pageRequests pid offset (S n)
  = GetPlaylistItems pid 50 offset :: pageRequests pid (offset + 50) n.
Proof.
  unfold pageRequests. simpl. rewrite Nat.add_0_r. f_equal.
  rewrite <- seq_shift, map_map. apply map_ext.
  intros k. f_equal. lia.
Qed.

Lemma pageRequests_snoc (pid : string) (offset n : nat) :
  pageRequests pid offset (S n)
  = pageRequests pid offset n ++ [GetPlaylistItems pid 50 (offset + 50 * n)].
Proof.
  unfold pageRequests. rewrite seq_S, map_app. reflexivity.
Qed.

Lemma fetchPage_run (sp : SpotifyApi) (pid : string) (offset : nat)
    (tr : list call) :
  fetchPage sp pid offset tr
  = Some (inr match playlists_getPlaylistItems sp tr pid 50 offset with
              | inl e => inl (pageCatch e)
              | inr page => inr page
              end,
          tr ++ [GetPlaylistItems pid 50 offset]).
Proof.
  unfold fetchPage, catchH, bindH, request, retH.
  destruct (playlists_getPlaylistItems sp tr pid 50 offset); reflexivity.
Qed.

(** The paging loop never throws; it makes page requests at offsets
    [offset], [offset + 50], ... and ends either after one that returned or
    at the first one that threw. *)
Lemma fetchPages_spec (sp : SpotifyApi) (pid : string) :
  forall (fuel : nat) (all : list PlaylistedTrack) (offset : nat)
         (tr : list call) r tr',
    fetchPages sp pid fuel all offset tr = Some (r, tr') ->
    exists n,
      tr' = tr ++ pageRequests pid offset (S n)
      /\ match r with
         | inl _ => False
         | inr (inl resp) =>
             allReturn sp tr (pageRequests pid offset n)
             /\ exists e,
                  callThrows sp (tr ++ pageRequests pid offset n)
                    (GetPlaylistItems pid 50 (offset + 50 * n)) = Some e
                  /\ resp = pageCatch e
         | inr (inr _) => allReturn sp tr (pageRequests pid offset (S n))
         end.
Proof.
  induction fuel as [|fuel IH]; intros all offset tr r tr' Hrun;
    [discriminate Hrun|].
  simpl in Hrun. unfold bindH at 1 in Hrun. rewrite fetchPage_run in Hrun.
  destruct (playlists_getPlaylistItems sp tr pid 50 offset) as [e|page] eqn:Hcall.
  - injection Hrun as <- <-. exists 0%nat.
    split; [rewrite pageRequests_S; reflexivity|].
    split; [exact I|]. exists e. simpl.
    rewrite app_nil_r, Nat.add_0_r, Hcall. auto.
  - assert (Hret : callThrows sp tr (GetPlaylistItems pid 50 offset) = None).
    { simpl. rewrite Hcall. reflexivity. }
    destruct (length (page_items page) =? 0)%nat.
    { injection Hrun as <- <-. exists 0%nat.
      rewrite pageRequests_S. simpl. auto. }
    destruct (negb (truthyString (page_next page))).
    { injection Hrun as <- <-. exists 0%nat.
      rewrite pageRequests_S. simpl. auto. }
    apply IH in Hrun. destruct Hrun as (n & -> & Hr).
    exists (S n).
    split; [rewrite (pageRequests_S pid offset (S n)), <- app_assoc;
            reflexivity|].
    destruct r as [e|[resp|items]]; [exact Hr| |].
    + destruct Hr as (Hall & e & Hthrow & ->).
      split; [rewrite pageRequests_S; simpl; auto|].
      exists e. split; [|reflexivity].
      rewrite pageRequests_S.
      replace (offset + 50 * S n)%nat with (offset + 50 + 50 * n)%nat by lia.
      rewrite <- app_assoc in Hthrow. exact Hthrow.
    + rewrite (pageRequests_S pid offset (S n)). simpl. auto.
Qed.

Lemma fetchFeaturesBatch_run (sp : SpotifyApi) (feats : list AudioFeatures)
    (batch : list string) (tr : list call) :
  fetchFeaturesBatch sp feats batch tr
  = Some (inr match tracks_audioFeatures sp tr batch with
              | inl e => inl (featuresCatch e)
              | inr featuresResult => inr (feats ++ nonNull featuresResult)
              end,
          tr ++ [TracksAudioFeatures batch]).
Proof.
  unfold fetchFeaturesBatch, catchH, bindH, request, retH.
  destruct (tracks_audioFeatures sp tr batch); reflexivity.
Qed.

(** The features loop, given fuel for the ids that are left: it never
    throws, asks for the successive slices of 100 ids, and ends either after
    the last of them or at the first request that threw. *)
Lemma fetchFeatures_spec (sp : SpotifyApi) (ids : list string) :
  forall (fuel : nat) (feats : list AudioFeatures) (i : nat) (tr : list call),
    (length ids - i <= fuel)%nat ->
    exists (bs : list (list string)) r,
      fetchFeatures sp ids fuel feats i tr
      = Some (inr r, tr ++ map TracksAudioFeatures bs)
      /\ (forall k b, bs !! k = Some b ->
                      b = slice (i + 100 * k) (i + 100 * k + 100) ids
                      /\ (i + 100 * k < length ids)%nat)
      /\ match r with
         | inl resp =>
             exists bs' b e,
               bs = bs' ++ [b]
               /\ allReturn sp tr (map TracksAudioFeatures bs')
               /\ callThrows sp (tr ++ map TracksAudioFeatures bs')
                    (TracksAudioFeatures b) = Some e
               /\ resp = featuresCatch e
         | inr _ =>
             allReturn sp tr (map TracksAudioFeatures bs)
             /\ concat bs = drop i ids
         end.
Proof.
  induction fuel as [|fuel IH]; intros feats i tr Hfuel.
  - simpl. destruct (i <? length ids)%nat eqn:Hi.
    + apply Nat.ltb_lt in Hi. lia.
    + apply Nat.ltb_ge in Hi.
      exists [], (inr feats). simpl. rewrite app_nil_r.
      split; [reflexivity|]. split; [intros k b Hk; discriminate Hk|].
      split; [exact I|]. symmetry. apply drop_ge. exact Hi.
  - simpl. destruct (i <? length ids)%nat eqn:Hi.
    2: { apply Nat.ltb_ge in Hi.
         exists [], (inr feats). simpl. rewrite app_nil_r.
         split; [reflexivity|]. split; [intros k b Hk; discriminate Hk|].
         split; [exact I|]. symmetry. apply drop_ge. exact Hi. }
    apply Nat.ltb_lt in Hi.
    set (batch := slice i (i + 100) ids).
    unfold bindH at 1. rewrite fetchFeaturesBatch_run.
    destruct (tracks_audioFeatures sp tr batch) as [e|result] eqn:Hcall.
    + exists [batch], (inl (featuresCatch e)). simpl.
      split; [reflexivity|]. split.
      { intros [|k] b Hk; simpl in Hk; [|discriminate Hk].
        injection Hk as <-.
        split; [unfold batch; f_equal; lia | lia]. }
      exists [], batch, e. simpl. rewrite app_nil_r, Hcall. auto.
    + destruct (IH (feats ++ nonNull result) (i + 100)%nat
                  (tr ++ [TracksAudioFeatures batch]))
        as (bs & r & Hrun & Hslices & Hr); [lia|].
      exists (batch :: bs), r. simpl.
      split; [rewrite Hrun, <- app_assoc; reflexivity|]. split.
      { intros [|k] b Hk; simpl in Hk.
        - injection Hk as <-.
          split; [unfold batch; f_equal; lia | lia].
        - destruct (Hslices k b Hk) as [-> Hlt].
          split; [f_equal; lia | lia]. }
      destruct r as [resp|feats'].
      * destruct Hr as (bs' & b & e & -> & Hret & Hthrow & ->).
        exists (batch :: bs'), b, e. simpl.
        split; [reflexivity|]. rewrite Hcall.
        split; [split; [reflexivity | exact Hret]|].
        rewrite <- app_assoc in Hthrow. auto.
      * destruct Hr as [Hret Hcat]. rewrite Hcall.
        split; [split; [reflexivity | exact Hret]|].
        rewrite Hcat. apply slice_drop.
Qed.

(** Every request that ends, ends in one of the outcomes. *)
Lemma sourcePlaylistHandler_outcome (fuel : nat) (env : Env)
    (req : SourcePlaylistRequest) (resp : Response (list AnalyzedTrack))
    (tr : list call) :
  sourcePlaylistHandler fuel env req = Some (resp, tr) ->
  sourcePlaylistOutcome env req resp tr.
Proof.
  unfold sourcePlaylistHandler.
  destruct (String.eqb (sr_method req) "POST") eqn:Hm; cbn [negb].
  2: { apply String.eqb_neq in Hm. intros [= <- <-]. apply spo_method, Hm. }
  apply String.eqb_eq in Hm.
  unfold sourcePlaylistTry. unfold bindH at 1. unfold settle.
  destruct (getToken env) as [e|[token|]] eqn:Htok; cbv beta iota.
  - intros [= <- <-]. apply spo_getToken_throws; assumption.
  - destruct (truthyString (jwt_accessToken token)) eqn:Hacc; cbn [negb].
    2: { intros [= <- <-]. eapply spo_no_accessToken; eassumption. }
    assert (Hauth : authenticated env token) by (split; assumption).
    destruct (truthyString (sr_playlistId req)) eqn:Hpid; cbn [negb].
    2: { intros [= <- <-]. eapply spo_no_playlistId; eassumption. }
    apply truthyString_Some in Hpid. destruct Hpid as (pid & Hpid & _).
    rewrite Hpid. cbv zeta. cbn [default from_option Datatypes.id].
    set (sp := spotifyForSource env token).
    unfold bindH at 1.
    destruct (fetchPages sp pid fuel [] 0 []) as [[r tr1]|] eqn:Hpages;
      [|discriminate].
    apply fetchPages_spec in Hpages. destruct Hpages as (n & -> & Hr).
    rewrite app_nil_l.
    destruct r as [e|[resp'|items]]; [destruct Hr| |].
    + destruct Hr as (Hall & e & Hthrow & ->).
      intros [= <- <-]. eapply spo_page_throws; eassumption.
    + destruct (length (map trackId (validTracksOf items)) =? 0)%nat eqn:Hlen.
      { intros [= <- <-]. eapply spo_no_valid_track; eassumption. }
      apply Nat.eqb_neq in Hlen.
      destruct (fetchFeatures_spec sp (map trackId (validTracksOf items))
                  (length (map trackId (validTracksOf items))) [] 0
                  (pageRequests pid 0 (S n)))
        as (bs & r & Hrun & Hslices & Hfeat); [lia|].
      unfold bindH. rewrite Hrun.
      destruct r as [resp'|feats].
      * destruct Hfeat as (sent & batch & e & -> & Hret & Hthrow & ->).
        intros [= <- <-].
        eapply spo_features_throw; try eassumption.
        apply allReturn_app. split; assumption.
      * destruct Hfeat as [Hret Hcat]. rewrite drop_0 in Hcat.
        intros [= <- <-].
        eapply spo_analyzed; try eassumption.
        -- intros E. apply Hlen. rewrite E. reflexivity.
        -- apply allReturn_app. split; assumption.
  - intros [= <- <-]. apply spo_no_token; assumption.
Qed.

Lemma sourceStatusCode_cases (message : string) :
  sourceStatusCode message = 403%Z \/ sourceStatusCode message = 500%Z.
Proof.
  unfold sourceStatusCode.
  destruct (stringIncludes message "403" || stringIncludes message "Bad OAuth");
    auto.
Qed.

Lemma allReturn_last (sp : SpotifyApi) (hist cs : list call) (c : call) :
  allReturn sp hist (cs ++ [c]) -> callThrows sp (hist ++ cs) c = None.
Proof.
  intros Hall. apply allReturn_app in Hall. destruct Hall as [_ [Hc _]].
  exact Hc.
Qed.

Lemma authenticated_unique (env : Env) (token token' : JWT) :
  authenticated env token -> authenticated env token' -> token = token'.
Proof.
  intros [H1 _] [H2 _]. rewrite H1 in H2. injection H2 as ->. reflexivity.
Qed.

(** X17: when the route answers, its status is one of 200, 400, 401, 403,
    405, 500. *)
Theorem sourcePlaylistHandler_status (fuel : nat) (env : Env)
    (req : SourcePlaylistRequest) (resp : Response (list AnalyzedTrack))
    (tr : list call) :
  sourcePlaylistHandler fuel env req = Some (resp, tr) ->
  In (status resp) [200; 400; 401; 403; 405; 500]%Z.
Proof.
  intros Hrun. apply sourcePlaylistHandler_outcome in Hrun.
  destruct Hrun; try (simpl; tauto).
  - unfold sourcePlaylistCatch. cbv zeta. simpl.
    destruct (sourceStatusCode_cases
                match e with
                | ErrorObject m => m
                | OtherValue => "Failed to analyze playlist"%string
                end) as [-> | ->]; tauto.
  - unfold featuresCatch. cbv zeta. simpl.
    destruct (sourceStatusCode_cases
                match e with
                | ErrorObject m => m
                | OtherValue =>
                    "Failed to fetch audio features for a batch"%string
                end) as [-> | ->]; tauto.
Qed.

Lemma sourcePlaylistHandler_status_witness :
  In (status (@jsonError (list AnalyzedTrack) 500
                "Failed to fetch all playlist tracks."))
    [200; 400; 401; 403; 405; 500]%Z.
Proof.
  apply (sourcePlaylistHandler_status 5 (envWith forbiddenSpotify)
           sourceRequest _ [GetPlaylistItems "playlist" 50 0]).
  vm_compute. reflexivity.
Defined.

(** X18: the calls of the route are page requests for the playlist of the
    body, 50 items each, at offsets 0, 50, 100, ..., followed by requests for
    audio features of at least 1 and at most 100 ids each; no features are
    requested before the paging is over. *)
Theorem sourcePlaylistHandler_requests (fuel : nat) (env : Env)
    (req : SourcePlaylistRequest) (resp : Response (list AnalyzedTrack))
    (tr : list call) :
  sourcePlaylistHandler fuel env req = Some (resp, tr) ->
  exists (playlistId : string) (n : nat) (batches : list (list string)),
    tr = map (fun k => GetPlaylistItems playlistId 50 (50 * k)) (seq 0 n)
         ++ map TracksAudioFeatures batches
    /\ Forall (fun b => (1 <= length b <= 100)%nat) batches
    /\ (tr <> [] -> sr_playlistId req = Some playlistId).
Proof.
  intros Hrun. apply sourcePlaylistHandler_outcome in Hrun.
  destruct Hrun;
    try (exists EmptyString, 0%nat, []; simpl;
         split; [reflexivity|]; split; [constructor|];
         intros Hne; exfalso; apply Hne; reflexivity).
  - exists playlistId, (S n), []. rewrite app_nil_r.
    split; [reflexivity|]. split; [constructor | auto].
  - exists playlistId, (S n), []. rewrite app_nil_r.
    split; [reflexivity|]. split; [constructor | auto].
  - exists playlistId, (S n), (sent ++ [batch]).
    split; [reflexivity|].
    split; [eapply batchesOf_bounds; eassumption | auto].
  - exists playlistId, (S n), batches.
    split; [reflexivity|].
    split; [eapply batchesOf_bounds; eassumption | auto].
Qed.

Lemma sourcePlaylistHandler_requests_witness :
  exists (playlistId : string) (n : nat) (batches : list (list string)),
    [GetPlaylistItems "playlist" 50 0; TracksAudioFeatures ["t1"%string]]
    = map (fun k => GetPlaylistItems playlistId 50 (50 * k)) (seq 0 n)
      ++ map TracksAudioFeatures batches
    /\ Forall (fun b => (1 <= length b <= 100)%nat) batches
    /\ ([GetPlaylistItems "playlist" 50 0; TracksAudioFeatures ["t1"%string]]
        <> [] ->
        sr_playlistId sourceRequest = Some playlistId).
Proof.
  apply (sourcePlaylistHandler_requests 5
           (envWith (catalogue demoItems demoFeatures)) sourceRequest
           (jsonTracks
              [mkAnalyzedTrack "t1" "One" ["A"%string] "Album" 200000
                 (demoFeatures "t1")])).
  vm_compute. reflexivity.
Defined.

(** X19: when the last call made is one that threw, the response is fixed
    by the kind of call.  A page request that throws is answered with status
    500 and a fixed message, whatever was thrown, a 403 included; a features
    request that throws is answered with 403 when the message contains "403"
    or "Bad OAuth", and with 500 otherwise. *)
Theorem sourcePlaylistHandler_failure (fuel : nat) (env : Env)
    (req : SourcePlaylistRequest) (resp : Response (list AnalyzedTrack))
    (tr hist : list call) (c : call) (token : JWT) (e : thrown) :
  sourcePlaylistHandler fuel env req = Some (resp, tr) ->
  authenticated env token ->
  tr = hist ++ [c] ->
  callThrows (spotifyForSource env token) hist c = Some e ->
  match c with
  | GetPlaylistItems _ _ _ =>
      resp = jsonError 500 "Failed to fetch all playlist tracks."
  | TracksAudioFeatures _ =>
      resp
      = jsonError
          (if stringIncludes
                match e with
                | ErrorObject m => m
                | OtherValue =>
                    "Failed to fetch audio features for a batch"%string
                end "403"
              || stringIncludes
                   match e with
                   | ErrorObject m => m
                   | OtherValue =>
                       "Failed to fetch audio features for a batch"%string
                   end "Bad OAuth"
           then 403%Z else 500%Z)
          ("Analysis failed during audio feature fetch: "
           ++ match e with
              | ErrorObject m => m
              | OtherValue =>
                  "Failed to fetch audio features for a batch"%string
              end)%string
  | _ => False
  end.
Proof.
  intros Hrun Hauth Htr Hthrow. apply sourcePlaylistHandler_outcome in Hrun.
  destruct Hrun as [ | | | |
                    |token' pid n e' _ Hauth' _ Hall Hthrow'
                    |token' pid n _ Hauth' _ Hall
                    |token' pid n items sent batch e' _ Hauth' _ _ Hall Hthrow'
                    |token' pid n items batches feats _ Hauth' _ Hne _ Hcat Hall];
    try (symmetry in Htr; apply app_eq_nil in Htr; destruct Htr as [_ Htr];
         discriminate Htr).
  - rewrite pageRequests_snoc in Htr. apply app_inj_tail in Htr.
    destruct Htr as [<- <-]. reflexivity.
  - rewrite pageRequests_snoc in Htr, Hall. apply app_inj_tail in Htr.
    destruct Htr as [<- <-].
    rewrite (authenticated_unique _ _ _ Hauth Hauth') in Hthrow.
    apply allReturn_last in Hall. rewrite app_nil_l in Hall.
    rewrite Hall in Hthrow. discriminate Hthrow.
  - rewrite map_app, app_assoc in Htr. apply app_inj_tail in Htr.
    destruct Htr as [<- <-].
    rewrite (authenticated_unique _ _ _ Hauth Hauth') in Hthrow.
    rewrite Hthrow' in Hthrow. injection Hthrow as <-. reflexivity.
  - destruct (exists_last (l := batches)) as (bs' & b & ->).
    { intros ->. simpl in Hcat.
      destruct (validTracksOf items); [apply Hne; reflexivity | discriminate]. }
    rewrite map_app, app_assoc in Htr, Hall. apply app_inj_tail in Htr.
    destruct Htr as [<- <-].
    rewrite (authenticated_unique _ _ _ Hauth Hauth') in Hthrow.
    apply allReturn_last in Hall. rewrite app_nil_l in Hall.
    rewrite Hall in Hthrow. discriminate Hthrow.
Qed.

Lemma sourcePlaylistHandler_failure_witness :
  @jsonError (list AnalyzedTrack) 500 "Failed to fetch all playlist tracks."
  = jsonError 500 "Failed to fetch all playlist tracks.".
Proof.
  apply (sourcePlaylistHandler_failure 5 (envWith forbiddenSpotify)
           sourceRequest _ [GetPlaylistItems "playlist" 50 0] []
           (GetPlaylistItems "playlist" 50 0) signedIn
           (ErrorObject "403 Forbidden")).
  - vm_compute. reflexivity.
  - split; reflexivity.
  - reflexivity.
  - reflexivity.
Defined.

Lemma validTracksOf_id (items : list PlaylistedTrack) (track : SpotifyTrack) :
  In track (validTracksOf items) ->
  exists i, st_id track = Some i /\ i <> EmptyString.
Proof.
  intros Hin. apply list_elem_of_In in Hin.
  unfold validTracksOf in Hin. apply list_elem_of_omap in Hin.
  destruct Hin as (item & _ & Hitem).
  destruct (item_track item) as [t|]; [|discriminate].
  destruct (truthyString (st_id t)) eqn:Ht; [|discriminate].
  injection Hitem as ->. apply truthyString_Some, Ht.
Qed.

(** X20: in a 200 response every track has a non-empty id, and the audio
    features attached to a track, if any, are features that carry this
    track's id: a track never gets the features of another one. *)
Theorem sourcePlaylistHandler_features_match (fuel : nat) (env : Env)
    (req : SourcePlaylistRequest) (resp : Response (list AnalyzedTrack))
    (tr : list call) (tracks : list AnalyzedTrack) (t : AnalyzedTrack) :
  sourcePlaylistHandler fuel env req = Some (resp, tr) ->
  body resp = inr tracks ->
  In t tracks ->
  at_id t <> EmptyString
  /\ forall f, at_audioFeatures t = Some f -> af_id f = at_id t.
Proof.
  intros Hrun Hbody Hin. apply sourcePlaylistHandler_outcome in Hrun.
  destruct Hrun; try discriminate Hbody.
  - simpl in Hbody. injection Hbody as <-. destruct Hin.
  - simpl in Hbody. injection Hbody as <-.
    apply in_map_iff in Hin. destruct Hin as (track & <- & Hvalid).
    apply validTracksOf_id in Hvalid. destruct Hvalid as (i & Hi & Hne).
    unfold withFeatures, trackId. rewrite Hi. simpl. split; [exact Hne|].
    intros f Hf. apply find_some in Hf. destruct Hf as [_ Hf].
    apply String.eqb_eq, Hf.
Qed.

Lemma sourcePlaylistHandler_features_match_witness :
  at_id
    (mkAnalyzedTrack "t1" "One" ["A"%string] "Album" 200000 (demoFeatures "t1"))
  <> EmptyString
  /\ forall f,
       at_audioFeatures
         (mkAnalyzedTrack "t1" "One" ["A"%string] "Album" 200000
            (demoFeatures "t1")) = Some f ->
       af_id f
       = at_id
           (mkAnalyzedTrack "t1" "One" ["A"%string] "Album" 200000
              (demoFeatures "t1")).
Proof.
  apply (sourcePlaylistHandler_features_match 5
           (envWith (catalogue demoItems demoFeatures)) sourceRequest
           (jsonTracks
              [mkAnalyzedTrack "t1" "One" ["A"%string] "Album" 200000
                 (demoFeatures "t1")])
           [GetPlaylistItems "playlist" 50 0; TracksAudioFeatures ["t1"%string]]
           [mkAnalyzedTrack "t1" "One" ["A"%string] "Album" 200000
              (demoFeatures "t1")]).
  - vm_compute. reflexivity.
  - reflexivity.
  - left. reflexivity.
Defined.

(** *** Against a catalogue that behaves *)

Section Catalogue.
Variables (items : list PlaylistedTrack)
          (features : string -> option AudioFeatures).

Lemma fetchPages_catalogue (pid : string) :
  forall (fuel : nat) (all : list PlaylistedTrack) (offset : nat)
         (tr : list call),
    (1 <= fuel)%nat ->
    (length items - offset <= 50 * fuel)%nat ->
    exists n,
      fetchPages (catalogue items features) pid fuel all offset tr
      = Some (inr (inr (all ++ drop offset items)),
              tr ++ pageRequests pid offset (S n)).
Proof.
  induction fuel as [|fuel IH]; intros all offset tr Hone Hfuel; [lia|].
  simpl. unfold bindH at 1. rewrite fetchPage_run.
  cbn [catalogue playlists_getPlaylistItems page_items page_next].
  destruct (length (take 50 (drop offset items)) =? 0)%nat eqn:Hempty.
  - apply Nat.eqb_eq in Hempty.
    rewrite length_take, length_drop in Hempty.
    exists 0%nat. rewrite pageRequests_S.
    rewrite (drop_ge items offset) by lia. rewrite app_nil_r. reflexivity.
  - apply Nat.eqb_neq in Hempty.
    rewrite length_take, length_drop in Hempty.
    destruct (offset + 50 <? length items)%nat eqn:Hnext.
    + apply Nat.ltb_lt in Hnext. cbn [truthyString negb String.eqb].
      destruct (IH (all ++ take 50 (drop offset items)) (offset + 50)%nat
                  (tr ++ [GetPlaylistItems pid 50 offset]))
        as (n & Hrun); [lia | lia |].
      exists (S n). rewrite Hrun.
      rewrite (pageRequests_S pid offset (S n)).
      rewrite <- !app_assoc. simpl.
      rewrite <- (drop_drop items 50 offset), take_drop. reflexivity.
    + apply Nat.ltb_ge in Hnext. cbn [truthyString negb].
      exists 0%nat. rewrite pageRequests_S.
      rewrite take_ge by (rewrite length_drop; lia). reflexivity.
Qed.

Lemma nonNull_map (ids : list string) :
  nonNull (map features ids) = omap features ids.
Proof.
  unfold nonNull, omap. induction ids as [|i ids IH]; simpl; [reflexivity|].
  rewrite IH. destruct (features i); reflexivity.
Qed.

Lemma fetchFeatures_catalogue (ids : list string) :
  forall (fuel : nat) (feats : list AudioFeatures) (i : nat) (tr : list call),
    (length ids - i <= fuel)%nat ->
    exists bs,
      fetchFeatures (catalogue items features) ids fuel feats i tr
      = Some (inr (inr (feats ++ omap features (drop i ids))),
              tr ++ map TracksAudioFeatures bs).
Proof.
  induction fuel as [|fuel IH]; intros feats i tr Hfuel.
  - simpl. destruct (i <? length ids)%nat eqn:Hi.
    + apply Nat.ltb_lt in Hi. lia.
    + apply Nat.ltb_ge in Hi. exists [].
      rewrite (drop_ge ids i) by exact Hi. simpl. rewrite !app_nil_r.
      reflexivity.
  - simpl. destruct (i <? length ids)%nat eqn:Hi.
    2: { apply Nat.ltb_ge in Hi. exists [].
         rewrite (drop_ge ids i) by exact Hi. simpl. rewrite !app_nil_r.
         reflexivity. }
    apply Nat.ltb_lt in Hi.
    unfold bindH at 1. rewrite fetchFeaturesBatch_run.
    cbn [catalogue tracks_audioFeatures].
    destruct (IH (feats ++ nonNull (map features (slice i (i + 100) ids)))
                (i + 100)%nat
                (tr ++ [TracksAudioFeatures (slice i (i + 100) ids)]))
      as (bs & Hrun); [lia|].
    exists (slice i (i + 100) ids :: bs). rewrite Hrun.
    rewrite nonNull_map, <- !app_assoc. simpl.
    rewrite <- omap_app, slice_drop. reflexivity.
Qed.

Hypothesis features_id :
  forall (i : string) (f : AudioFeatures), features i = Some f -> af_id f = i.

Lemma find_features (tid : string) (ids : list string) :
  In tid ids ->
  List.find (fun f => String.eqb (af_id f) tid) (omap features ids)
  = features tid.
Proof using features_id.
  assert (Hnone : forall l,
             features tid = None ->
             List.find (fun f => String.eqb (af_id f) tid) (omap features l)
             = None).
  { intros l Htid. induction l as [|x l IH]; simpl; [reflexivity|].
    destruct (features x) as [f|] eqn:Hx; simpl; [|exact IH].
    destruct (String.eqb (af_id f) tid) eqn:E; [|exact IH].
    apply String.eqb_eq in E. rewrite (features_id x f Hx) in E. subst x.
    rewrite Htid in Hx. discriminate Hx. }
  induction ids as [|x ids IH]; simpl; [tauto|].
  intros [->|Hin].
  - destruct (features tid) as [f|] eqn:Htid; simpl.
    + rewrite (features_id tid f Htid), String.eqb_refl. reflexivity.
    + apply Hnone. reflexivity.
  - destruct (features x) as [f|] eqn:Hx; simpl; [|apply IH, Hin].
    destruct (String.eqb (af_id f) tid) eqn:E; [|apply IH, Hin].
    apply String.eqb_eq in E. rewrite (features_id x f Hx) in E. subst x.
    symmetry. exact Hx.
Qed.
End Catalogue.

(** X21: against a catalogue that serves the playlist [items] page by page
    and answers a features request with the features of each id asked, the
    route, given fuel for the pages, answers 200 with one entry for every
    item that has a track with a non-empty id, in playlist order, each entry
    carrying its track's fields and the catalogue's features for its id. *)
Theorem sourcePlaylistHandler_catalogue (fuel : nat) (env : Env)
    (req : SourcePlaylistRequest) (token : JWT) (playlistId : string)
    (items : list PlaylistedTrack)
    (features : string -> option AudioFeatures) :
  sr_method req = "POST"%string ->
  authenticated env token ->
  sr_playlistId req = Some playlistId ->
  playlistId <> EmptyString ->
  spotifyForSource env token = catalogue items features ->
  (forall (i : string) (f : AudioFeatures),
      features i = Some f -> af_id f = i) ->
  (1 <= fuel)%nat ->
  (length items <= 50 * fuel)%nat ->
  exists tr,
    sourcePlaylistHandler fuel env req
    = Some
        (jsonTracks
           (map
              (fun track =>
                 {| at_id := trackId track;
                    at_name := st_name track;
                    at_artists := map artist_name (st_artists track);
                    at_album :=
                      match st_album track with
                      | Some album => album_name album
                      | None => "Unknown Album"%string
                      end;
                    at_duration_ms := st_duration_ms track;
                    at_audioFeatures := features (trackId track) |})
              (validTracksOf items)),
         tr).
Proof.
  intros Hm [Htok Hacc] Hpid Hne Hsp Hid Hone Hfuel.
  unfold sourcePlaylistHandler. rewrite Hm. cbn [String.eqb Ascii.eqb negb].
  replace (String.eqb "POST" "POST") with true by reflexivity. cbn [negb].
  unfold sourcePlaylistTry. unfold bindH at 1. unfold settle.
  rewrite Htok. cbv beta iota. rewrite Hacc. cbn [negb].
  assert (Htruthy : truthyString (sr_playlistId req) = true).
  { apply truthyString_Some. exists playlistId. auto. }
  rewrite Htruthy. cbn [negb]. rewrite Hpid. cbv zeta.
  cbn [default from_option Datatypes.id]. rewrite Hsp.
  destruct (fetchPages_catalogue items features playlistId fuel [] 0 [])
    as (n & Hpages); [exact Hone | lia |].
  unfold bindH at 1. rewrite Hpages. rewrite app_nil_l, drop_0.
  destruct (length (map trackId (validTracksOf items)) =? 0)%nat eqn:Hlen.
  - apply Nat.eqb_eq in Hlen. rewrite length_map in Hlen.
    destruct (validTracksOf items); [|discriminate Hlen].
    eexists. reflexivity.
  - destruct (fetchFeatures_catalogue items features
                (map trackId (validTracksOf items))
                (length (map trackId (validTracksOf items))) [] 0
                ([] ++ pageRequests playlistId 0 (S n)))
      as (bs & Hfeat); [lia|].
    unfold bindH. rewrite Hfeat. rewrite app_nil_l, drop_0.
    eexists. unfold retH. do 3 f_equal.
    apply map_ext_in. intros track Htrack.
    unfold withFeatures. cbv zeta. f_equal.
    apply find_features; [exact Hid|].
    apply in_map, Htrack.
Qed.

Lemma sourcePlaylistHandler_catalogue_witness :
  exists tr,
    sourcePlaylistHandler 1 (envWith (catalogue demoItems demoFeatures))
      sourceRequest
    = Some
        (jsonTracks
           [mkAnalyzedTrack "t1" "One" ["A"%string] "Album" 200000
              (demoFeatures "t1")],
         tr).
Proof.
  apply (sourcePlaylistHandler_catalogue 1
           (envWith (catalogue demoItems demoFeatures)) sourceRequest signedIn
           "playlist" demoItems demoFeatures).
  - reflexivity.
  - split; reflexivity.
  - reflexivity.
  - discriminate.
  - reflexivity.
  - intros i f [= <-]. reflexivity.
  - lia.
  - simpl. lia.
Defined.


(** ** The auth callbacks *)

Lemma Qfloor_seconds (a b : Z) :
  Qfloor (inject_Z a / 1000 + inject_Z b) = (a / 1000 + b)%Z.
Proof.
  unfold Qfloor, Qdiv, Qplus, Qmult, Qinv, inject_Z. simpl.
  rewrite !Z.mul_1_r.
  replace (a * 1 + b * 1000)%Z with (a + b * 1000)%Z by lia.
  rewrite Z.div_add by lia. reflexivity.
Qed.


(** X23: a token that has just been refreshed is taken as it is.  After a
    successful refresh granting at least one second, the [jwt] callback,
    called again before [floor(now / 1000) + expires_in] seconds (so also at
    the instant of the refresh), returns the refreshed token unchanged and
    posts nothing. *)
Theorem jwtCallback_after_refresh (env env' : AuthEnv) (token : JWT)
    (r : string) (response : FetchResponse)
    (refreshed : SpotifyRefreshedTokens) (now' : Z) (user : option string) :
  jwt_refreshToken token = Some r ->
  r <> EmptyString ->
  auth_fetch env r = inr response ->
  fr_ok response = true ->
  fr_json response = inr refreshed ->
  (0 <= auth_now env)%Z ->
  (1 <= rt_expires_in refreshed)%Z ->
  (now' < (auth_now env / 1000 + rt_expires_in refreshed) * 1000)%Z ->
  jwt_error (fst (refreshAccessToken env token)) = None
  /\ jwtCallback now' env' (fst (refreshAccessToken env token)) None user
     = (fst (refreshAccessToken env token), [])
  /\ (auth_now env < (auth_now env / 1000 + rt_expires_in refreshed) * 1000)%Z.
Proof.
  intros Hr Hne Hfetch Hok Hjson Hnow Hexp Hlater.
  assert (Htruthy : truthyString (jwt_refreshToken token) = true).
  { apply truthyString_Some. exists r. auto. }
  unfold refreshAccessToken, refreshAccessTokenTry.
  rewrite Htruthy. cbn [negb]. rewrite Hr.
  cbn [default from_option Datatypes.id].
  rewrite Hfetch, Hjson, Hok. cbn [negb fst].
  split; [reflexivity|]. split; [|zlia].
  unfold jwtCallback, notExpired. cbn [jwt_expiresAt].
  rewrite Qfloor_seconds.
  assert (Hpos : (auth_now env / 1000 + rt_expires_in refreshed =? 0)%Z
                 = false) by (apply Z.eqb_neq; zlia).
  assert (Hlt : (now' <? (auth_now env / 1000 + rt_expires_in refreshed) * 1000)%Z
                = true) by (apply Z.ltb_lt; exact Hlater).
  destruct user; rewrite Hpos, Hlt; reflexivity.
Qed.

Lemma jwtCallback_after_refresh_witness :
  jwt_error (fst (refreshAccessToken grantingEndpoint staleToken)) = None
  /\ jwtCallback 1700000000500 refusingEndpoint
       (fst (refreshAccessToken grantingEndpoint staleToken)) None None
     = (fst (refreshAccessToken grantingEndpoint staleToken), [])
  /\ (auth_now grantingEndpoint
      < (auth_now grantingEndpoint / 1000 + 3600) * 1000)%Z.
Proof.
  apply (jwtCallback_after_refresh grantingEndpoint refusingEndpoint
           staleToken "refresh"
           (mkFetchResponse true 200 "OK"
              (inr (mkSpotifyRefreshedTokens "fresh" "Bearer" 3600 None
                      "playlist-read-private")))
           (mkSpotifyRefreshedTokens "fresh" "Bearer" 3600 None
              "playlist-read-private")
           1700000000500 None).
  - reflexivity.
  - discriminate.
  - reflexivity.
  - reflexivity.
  - reflexivity.
  - vm_compute. discriminate.
  - vm_compute. discriminate.
  - vm_compute. reflexivity.
Defined.

(** An expired token is refreshed by the callback; when the endpoint
    refuses, the old credentials stay and the error is flagged, and the
    session shows both. *)
Example jwtCallback_examples :
  jwtCallback 1700000000000 grantingEndpoint staleToken None None
  = (mkJWT (Some "fresh"%string) (Some "refresh"%string) (Some 1700003600%Z)
       None (Some "user"%string) None,
     ["refresh"%string])
  /\ jwtCallback 1700000000000 refusingEndpoint staleToken None None
     = (mkJWT (Some "old"%string) (Some "refresh"%string) (Some 1600000000%Z)
          None (Some "user"%string) (Some "RefreshAccessTokenError"%string),
        ["refresh"%string])
  /\ sessionCallback (mkSession (Some "user"%string) None None)
       (fst (jwtCallback 1700000000000 refusingEndpoint staleToken None None))
     = mkSession (Some "user"%string) (Some "old"%string)
         (Some "RefreshAccessTokenError"%string).
Proof. repeat split; reflexivity. Qed.
